(** * ch4_graph: undirected graphs over adjacency lists

    A shallow embedding of [algorithm/classic_problem/ch4_graph.py]:
    the dataclasses [Edge] and [WeightedEdge], the generic class [Graph]
    and its subclass [WeightedGraph].

    Python integers are [Z]; a Python list is a Rocq [list] read with
    stdpp's lookup, with Python's subscript rule (negative subscripts
    count from the end, anything else out of range raises [IndexError])
    written out in [py_index].  A method that mutates the graph is a
    function from the graph to an outcome and the graph it leaves
    behind, so that what a raised exception leaves mutated is visible. *)

From Stdlib Require Import ZArith PrimFloat SpecFloat FloatAxioms.
From stdpp Require Import base option list strings pretty gmap.

(** ** Exceptions and outcomes *)

Inductive exn : Set := IndexError | ValueError | TypeError.

Inductive result (A : Type) : Type :=
| Ok (a : A)
| Raise (e : exn).
Arguments Ok {A} a.
Arguments Raise {A} e.

#[global] Instance result_ret : MRet result := λ A a, Ok a.
#[global] Instance result_bind : MBind result := λ A B k r,
  match r with
  | Ok a => k a
  | Raise e => Raise e
  end.

(** [list(map(f, xs))] for an [f] that may raise: the first failure wins. *)
Fixpoint rmap {A B} (f : A → result B) (xs : list A) : result (list B) :=
  match xs with
  | [] => Ok []
  | x :: xs' =>
      y ← f x; ys ← rmap f xs'; Ok (y :: ys)
  end.

(** A method body: runs on a state, leaves a state, returns or raises. *)
Definition M (S A : Type) : Type := S → result A * S.

#[global] Instance M_ret S : MRet (M S) := λ A a s, (Ok a, s).
#[global] Instance M_bind S : MBind (M S) := λ A B k m s,
  match m s with
  | (Ok a, s') => k a s'
  | (Raise e, s') => (Raise e, s')
  end.

(** A read-only call inside a method body. *)
Definition read {S A} (f : S → result A) : M S A := λ s, (f s, s).

(** ** Python lists *)

(** The position [l[i]] denotes, if any. *)
Definition py_index {A} (l : list A) (i : Z) : option nat :=
  let n := Z.of_nat (length l) in
  if decide (0 ≤ i < n)%Z then Some (Z.to_nat i)
  else if decide (- n ≤ i < 0)%Z then Some (Z.to_nat (n + i))
  else None.

(** [l[i]] *)
Definition getitem {A} (l : list A) (i : Z) : result A :=
  match py_index l i with
  | Some k => match l !! k with
              | Some x => Ok x
              | None => Raise IndexError
              end
  | None => Raise IndexError
  end.

(** The position of the first element of [l] equal to [x], if any. *)
Fixpoint list_index `{EqDecision A} (l : list A) (x : A) : option nat :=
  match l with
  | [] => None
  | y :: l' => if decide (y = x) then Some 0 else S <$> list_index l' x
  end.

(** [l.index(x)] *)
Definition index `{EqDecision A} (l : list A) (x : A) : result Z :=
  match list_index l x with
  | Some k => Ok (Z.of_nat k)
  | None => Raise ValueError
  end.

(** [sum(xs)]: accumulates from 0, left to right. *)
Definition py_sum (xs : list Z) : Z := foldl Z.add 0%Z xs.

(** The subscripts a list of length [n] accepts. *)
Definition in_range (n : nat) (i : Z) : Prop :=
  (- Z.of_nat n ≤ i < Z.of_nat n)%Z.

#[global] Instance in_range_dec n i : Decision (in_range n i).
Proof. unfold in_range. apply _. Defined.

(** [k] is the position of the first element of [l] equal to [x]. *)
Definition first_match {A} (l : list A) (x : A) (k : nat) : Prop :=
  l !! k = Some x ∧ ∀ j, j < k → l !! j ≠ Some x.

(** What a value denotes when it is used as a subscript: an [int] denotes
    itself, any other value is refused with [TypeError]. *)
Class AsIndex (V : Type) := as_index : V → option Z.

#[global] Instance Z_as_index : AsIndex Z := λ z, Some z.
#[global] Instance string_as_index : AsIndex string := λ _, None.

(** ** The edge dataclasses *)

(** What [Graph.add_edge] uses of an edge: its endpoints and [reversed()]. *)
Class EdgeLike (E : Type) := {
  edge_u : E → Z;
  edge_v : E → Z;
  edge_reversed : E → E;
}.

Module Edge.
Record t : Set := mk { u : Z; v : Z }.

Definition reversed (self : t) : t := mk (v self) (u self).
End Edge.

#[global] Instance Edge_like : EdgeLike Edge.t :=
  {| edge_u := Edge.u; edge_v := Edge.v; edge_reversed := Edge.reversed |}.

Module WeightedEdge.
Record t : Set := mk { u : Z; v : Z; weight : float }.

Definition reversed (self : t) : t := mk (v self) (u self) (weight self).

(** [__lt__] *)
Definition lt (self other : t) : bool :=
  PrimFloat.ltb (weight self) (weight other).
End WeightedEdge.

#[global] Instance WeightedEdge_like : EdgeLike WeightedEdge.t :=
  {| edge_u := WeightedEdge.u; edge_v := WeightedEdge.v;
     edge_reversed := WeightedEdge.reversed |}.

(** ** Graph *)

Module Graph.
Section Graph.
Context {V E : Type} `{EqDecision V} `{AsIndex V} `{EdgeLike E}.

Record t : Type := mk { _vertices : list V; _edges : list (list E) }.

(** [__init__]: one fresh empty adjacency list per vertex. *)
Definition init (vertices : list V) : t :=
  mk vertices ((λ _, []) <$> vertices).

Definition vertex_count (self : t) : Z := Z.of_nat (length (_vertices self)).

Definition edge_count (self : t) : Z :=
  py_sum ((λ l, Z.of_nat (length l)) <$> _edges self).

Definition add_vertex (vertex : V) : M t Z := λ self,
  let self' := mk (_vertices self ++ [vertex]) (_edges self ++ [[]]) in
  (Ok (vertex_count self' - 1)%Z, self').

(** [self._edges[i].append(e)] *)
Definition edges_append (i : Z) (e : E) : M t unit := λ self,
  match py_index (_edges self) i with
  | Some k => (Ok (), mk (_vertices self) (alter (λ l, l ++ [e]) k (_edges self)))
  | None => (Raise IndexError, self)
  end.

Definition add_edge (edge : E) : M t unit :=
  edges_append (edge_u edge) edge ;;
  edges_append (edge_v edge) (edge_reversed edge).

Definition vertex_at (self : t) (index : Z) : result V :=
  getitem (_vertices self) index.

Definition index_of (self : t) (vertex : V) : result Z :=
  index (_vertices self) vertex.

Definition neighbors_for_index (self : t) (index : Z) : result (list V) :=
  es ← getitem (_edges self) index;
  rmap (vertex_at self) (edge_v <$> es).

Definition neighbors_for_vertex (self : t) (vertex : V) : result (list V) :=
  index ← index_of self vertex;
  neighbors_for_index self index.

Definition edges_for_index (self : t) (index : Z) : result (list E) :=
  getitem (_edges self) index.

(** [self.vertex_at(vertex)] subscripts the vertex list with the vertex
    value itself, and what it returns, a vertex value again, subscripts
    the adjacency lists. *)
Definition edges_for_vertex (self : t) (vertex : V) : result (list E) :=
  match as_index vertex with
  | None => Raise TypeError
  | Some i =>
      x ← vertex_at self i;
      match as_index x with
      | None => Raise TypeError
      | Some j => edges_for_index self j
      end
  end.

(** The state the constructor sets up and successful calls keep: one
    adjacency list per vertex, and every stored edge leads to a
    subscript the vertex list accepts. *)
Definition wf (self : t) : Prop :=
  length (_edges self) = length (_vertices self) ∧
  Forall (Forall (λ e, in_range (length (_vertices self)) (edge_v e)))
         (_edges self).

#[global] Instance wf_dec self : Decision (wf self).
Proof. unfold wf. apply _. Defined.

(** The sum of the lengths of the adjacency lists, as a count. *)
Definition adjacency_total (self : t) : nat :=
  sum_list (length <$> _edges self).
End Graph.
Arguments t : clear implicits.

Section Unweighted.
Context {V : Type} `{EqDecision V}.

Definition add_edge_by_indices (u v : Z) : M (t V Edge.t) unit :=
  let edge := Edge.mk u v in
  add_edge edge.

Definition add_edge_by_vertices (first second : V) : M (t V Edge.t) unit :=
  u ← read (λ self, index (_vertices self) first);
  v ← read (λ self, index (_vertices self) second);
  add_edge_by_indices u v.

(** Calls a client makes on one graph, run in order; a raised
    exception ends the run. *)
Inductive call : Type :=
| AddVertex (vertex : V)
| AddEdge (edge : Edge.t)
| AddEdgeByIndices (u v : Z)
| AddEdgeByVertices (first second : V).

Definition do_call (c : call) : M (t V Edge.t) unit :=
  match c with
  | AddVertex vertex => add_vertex vertex ;; mret ()
  | AddEdge edge => add_edge edge
  | AddEdgeByIndices u v => add_edge_by_indices u v
  | AddEdgeByVertices first second => add_edge_by_vertices first second
  end.

Fixpoint do_calls (cs : list call) : M (t V Edge.t) unit :=
  match cs with
  | [] => mret ()
  | c :: cs' => do_call c ;; do_calls cs'
  end.

Definition is_add_edge (c : call) : bool :=
  match c with
  | AddVertex _ => false
  | _ => true
  end.

Definition add_edge_calls (cs : list call) : nat :=
  length (filter (λ c, is_add_edge c = true) cs).
End Unweighted.
End Graph.

(** ** WeightedGraph

    The subclass keeps the fields and inherits every method it does not
    override; its adjacency lists hold [WeightedEdge] records. *)

Module WeightedGraph.
Section WeightedGraph.
Context {V : Type} `{EqDecision V}.

Definition t : Type := Graph.t V WeightedEdge.t.

Definition init (vertices : list V) : t := Graph.init vertices.

Definition add_edge_by_indices (u v : Z) (weight : float) : M t unit :=
  let edge := WeightedEdge.mk u v weight in
  Graph.add_edge edge.

Definition add_edge_by_vertices (first second : V) (weight : float) : M t unit :=
  u ← read (λ self, Graph.index_of self first);
  v ← read (λ self, Graph.index_of self second);
  add_edge_by_indices u v weight.

Definition neighbors_for_index_with_weights (self : t) (index : Z)
    : result (list (V * float)) :=
  es ← Graph.edges_for_index self index;
  rmap (λ edge, x ← Graph.vertex_at self (WeightedEdge.v edge);
                Ok (x, WeightedEdge.weight edge)) es.
End WeightedGraph.
Arguments t : clear implicits.
End WeightedGraph.

(** ** Sorting by [__lt__]

    [sorted] compares with [<] only and is stable; on short lists it is
    an insertion sort, which is how it is modelled here: each element in
    turn goes behind every element of the sorted prefix that it is not
    smaller than. *)

Section Sorted.
Context {A : Type} (lt : A → A → bool).

Fixpoint insert_sorted (x : A) (l : list A) : list A :=
  match l with
  | [] => [x]
  | y :: l' => if lt x y then x :: y :: l' else y :: insert_sorted x l'
  end.

Definition sorted (l : list A) : list A :=
  foldl (λ acc x, insert_sorted x acc) [] l.
End Sorted.

(** ** Objects and sharing

    [__init__] keeps the list it is given, it does not copy it, and the
    default [[]] of its parameter is one list object made when the class
    is defined.  Graphs therefore hold a reference to a vertex list that
    other graphs may hold too.  The adjacency lists are made by
    [__init__] itself and belong to one graph. *)

Module Heap.
Section Heap.
Context {V E : Type}.

Definition loc := nat.

Record graph_obj : Type := mk_graph { vertices_ref : loc; edges_obj : list (list E) }.

Record t : Type := mk {
  lists : gmap loc (list V);      (* list objects holding vertices *)
  graphs : gmap loc graph_obj;    (* Graph instances *)
}.

(** The list object bound to the default of [vertices] in [__init__]. *)
Definition default_vertices : loc := 0.

(** The heap once the class statement has run. *)
Definition initial : t := mk {[ default_vertices := [] ]} ∅.

Definition fresh {X} (m : gmap loc X) : loc := fresh (dom m).

(** A list display [[x1, ..., xn]] makes a new list object. *)
Definition new_list (xs : list V) (h : t) : loc * t :=
  let l := fresh (lists h) in
  (l, mk (<[l := xs]> (lists h)) (graphs h)).

(** [Graph(vertices)], with [vertices] a reference to a list object. *)
Definition new_graph (vertices : loc) (h : t) : option (loc * t) :=
  vs ← lists h !! vertices;
  let g := fresh (graphs h) in
  Some (g, mk (lists h)
              (<[g := mk_graph vertices ((λ _, []) <$> vs)]> (graphs h))).

(** [Graph()] *)
Definition new_graph_default (h : t) : option (loc * t) :=
  new_graph default_vertices h.

(** The fields of the graph object [g] as the methods see them. *)
Definition view (h : t) (g : loc) : option (Graph.t V E) :=
  o ← graphs h !! g;
  vs ← lists h !! vertices_ref o;
  Some (Graph.mk vs (edges_obj o)).

(** A method call on [g]: what it does to [_vertices] happens to the
    list object, what it does to [_edges] to the graph's own lists. *)
Definition call {A} (g : loc) (m : M (Graph.t V E) A) (h : t)
    : option (result A * t) :=
  o ← graphs h !! g;
  vs ← lists h !! vertices_ref o;
  let '(r, self') := m (Graph.mk vs (edges_obj o)) in
  Some (r, mk (<[vertices_ref o := Graph._vertices self']> (lists h))
              (<[g := mk_graph (vertices_ref o) (Graph._edges self')]> (graphs h))).
End Heap.
Arguments t : clear implicits.
Arguments graph_obj : clear implicits.
End Heap.

(** ** Concrete graphs and runs *)

Module Examples.
#[local] Open Scope string_scope.

Definition single : Graph.t string Edge.t := Graph.init ["A"].

Definition abc : Graph.t string Edge.t := Graph.init ["A"; "B"; "C"].

Definition xy : WeightedGraph.t string := WeightedGraph.init ["X"; "Y"].

(** [abc] after [add_edge_by_vertices("A", "B")] and
    [add_edge_by_vertices("B", "C")]. *)
Definition abc_path : Graph.t string Edge.t :=
  ((Graph.add_edge_by_vertices "A" "B" ;;
    Graph.add_edge_by_vertices "B" "C") abc).2.

(** [xy] after [add_edge_by_vertices("X", "Y", 10.0)]. *)
Definition xy_joined : WeightedGraph.t string :=
  (WeightedGraph.add_edge_by_vertices "X" "Y" 10 xy).2.

(** [g1 = Graph(); g2 = Graph(); g1.add_vertex("a")], and then the
    fields of [g1] and of [g2]. *)
Definition two_default_graphs
    : option (Graph.t string Edge.t * Graph.t string Edge.t) :=
  '(g1, h) ← Heap.new_graph_default Heap.initial;
  '(g2, h) ← Heap.new_graph_default h;
  '(_, h) ← Heap.call g1 (Graph.add_vertex "a") h;
  self1 ← Heap.view h g1;
  self2 ← Heap.view h g2;
  Some (self1, self2).

(** The same with a list of its own for each graph:
    [g1 = Graph([]); g2 = Graph([]); g1.add_vertex("a")]. *)
Definition two_separate_graphs
    : option (Graph.t string Edge.t * Graph.t string Edge.t) :=
  let '(l1, h) := Heap.new_list [] Heap.initial in
  let '(l2, h) := Heap.new_list [] h in
  '(g1, h) ← Heap.new_graph l1 h;
  '(g2, h) ← Heap.new_graph l2 h;
  '(_, h) ← Heap.call g1 (Graph.add_vertex "a") h;
  self1 ← Heap.view h g1;
  self2 ← Heap.view h g2;
  Some (self1, self2).
End Examples.

(** ** Rendering

    [__str__] of [Edge] prints the endpoints in decimal.  The two graph
    classes print one line per vertex; how a vertex and how the list of
    its neighbours are rendered by the format string belongs to the
    vertex type, so both renderings are taken as parameters. *)

Definition newline : string := String (Ascii.ascii_of_nat 10) "".

Module EdgeStr.
Definition __str__ (self : Edge.t) : string :=
  pretty (Edge.u self) +:+ " -> " +:+ pretty (Edge.v self).

(** A text without blank: it cannot be cut at one. *)
Definition no_space (s : string) : Prop :=
  ∀ s1 s2, s ≠ s1 +:+ String (Ascii.ascii_of_nat 32) s2.
End EdgeStr.

Module GraphStr.
Section GraphStr.
Context {V E : Type} `{EdgeLike E}.
Context (format_vertex : V → string) (format_neighbors : list V → string).

(** The loop over [range(self.vertex_count)], from the subscripts still
    to visit and the text built so far. *)
Fixpoint str_from (self : Graph.t V E) (indices : list Z) (desc : string)
    : result string :=
  match indices with
  | [] => Ok desc
  | i :: indices' =>
      x ← Graph.vertex_at self i;
      ns ← Graph.neighbors_for_index self i;
      str_from self indices'
        (desc +:+ (format_vertex x +:+ " -> " +:+ format_neighbors ns +:+ newline))
  end.

Definition range (n : Z) : list Z := Z.of_nat <$> seq 0 (Z.to_nat n).

Definition __str__ (self : Graph.t V E) : result string :=
  str_from self (range (Graph.vertex_count self)) "".

(** The line one pass of the loop adds for the subscript [i]. *)
Definition line (self : Graph.t V E) (i : Z) : result string :=
  x ← Graph.vertex_at self i;
  ns ← Graph.neighbors_for_index self i;
  Ok (format_vertex x +:+ " -> " +:+ format_neighbors ns +:+ newline).
End GraphStr.
End GraphStr.

Module WeightedGraphStr.
Section WeightedGraphStr.
Context {V : Type} `{EqDecision V}.
Context (format_vertex : V → string)
        (format_neighbors : list (V * float) → string).

Fixpoint str_from (self : WeightedGraph.t V) (indices : list Z) (desc : string)
    : result string :=
  match indices with
  | [] => Ok desc
  | i :: indices' =>
      x ← Graph.vertex_at self i;
      ns ← WeightedGraph.neighbors_for_index_with_weights self i;
      str_from self indices'
        (desc +:+ (format_vertex x +:+ " -> " +:+ format_neighbors ns +:+ newline))
  end.

Definition __str__ (self : WeightedGraph.t V) : result string :=
  str_from self (GraphStr.range (Graph.vertex_count self)) "".

Definition line (self : WeightedGraph.t V) (i : Z) : result string :=
  x ← Graph.vertex_at self i;
  ns ← WeightedGraph.neighbors_for_index_with_weights self i;
  Ok (format_vertex x +:+ " -> " +:+ format_neighbors ns +:+ newline).
End WeightedGraphStr.
End WeightedGraphStr.

(** ** Undirected connections

    What the two appends of [add_edge] are meant to keep: a record stored
    at position [k] starts at [k], leads to a position of the graph, and
    its reversal is stored there. *)

Class EdgeLaws (E : Type) `{EdgeLike E} : Prop := {
  reversed_u (e : E) : edge_u (edge_reversed e) = edge_v e;
  reversed_v (e : E) : edge_v (edge_reversed e) = edge_u e;
  reversed_reversed (e : E) : edge_reversed (edge_reversed e) = e;
}.

Definition undirected {V E : Type} `{EdgeLike E} (self : Graph.t V E) : Prop :=
  ∀ (k : nat) (es : list E) (e : E),
    Graph._edges self !! k = Some es → e ∈ es →
    edge_u e = Z.of_nat k ∧ (0 ≤ edge_v e)%Z ∧
    ∃ es', Graph._edges self !! Z.to_nat (edge_v e) = Some es' ∧
           edge_reversed e ∈ es'.

(** Nothing removed, nothing rewritten: the vertices and every adjacency
    list of [self] are beginnings of what [self'] holds at the same
    positions. *)
Definition grows {V E : Type} (self self' : Graph.t V E) : Prop :=
  Graph._vertices self `prefix_of` Graph._vertices self' ∧
  ∀ (k : nat) (es : list E),
    Graph._edges self !! k = Some es →
    ∃ es', Graph._edges self' !! k = Some es' ∧ es `prefix_of` es'.

(** Calls whose subscripts, where they take any, are not negative. *)
Definition nonneg_call {V : Type} (c : Graph.call (V:=V)) : Prop :=
  match c with
  | Graph.AddVertex _ => True
  | Graph.AddEdge edge => (0 ≤ Edge.u edge)%Z ∧ (0 ≤ Edge.v edge)%Z
  | Graph.AddEdgeByIndices u v => (0 ≤ u)%Z ∧ (0 ≤ v)%Z
  | Graph.AddEdgeByVertices _ _ => True
  end.

Definition is_add_vertex {V : Type} (c : Graph.call (V:=V)) : bool :=
  match c with
  | Graph.AddVertex _ => true
  | _ => false
  end.

(** The calls a client makes on a weighted graph. *)
Module WeightedCalls.
Section WeightedCalls.
Context {V : Type} `{EqDecision V}.

Inductive call : Type :=
| AddVertex (vertex : V)
| AddEdge (edge : WeightedEdge.t)
| AddEdgeByIndices (u v : Z) (weight : float)
| AddEdgeByVertices (first second : V) (weight : float).

Definition do_call (c : call) : M (WeightedGraph.t V) unit :=
  match c with
  | AddVertex vertex => Graph.add_vertex vertex ;; mret ()
  | AddEdge edge => Graph.add_edge edge
  | AddEdgeByIndices u v weight => WeightedGraph.add_edge_by_indices u v weight
  | AddEdgeByVertices first second weight =>
      WeightedGraph.add_edge_by_vertices first second weight
  end.

Fixpoint do_calls (cs : list call) : M (WeightedGraph.t V) unit :=
  match cs with
  | [] => mret ()
  | c :: cs' => do_call c ;; do_calls cs'
  end.

Definition nonneg_call (c : call) : Prop :=
  match c with
  | AddVertex _ => True
  | AddEdge edge => (0 ≤ WeightedEdge.u edge)%Z ∧ (0 ≤ WeightedEdge.v edge)%Z
  | AddEdgeByIndices u v _ => (0 ≤ u)%Z ∧ (0 ≤ v)%Z
  | AddEdgeByVertices _ _ _ => True
  end.

Definition is_add_edge (c : call) : bool :=
  match c with
  | AddVertex _ => false
  | _ => true
  end.
End WeightedCalls.
End WeightedCalls.

(** Heaps with two graphs: each graph with a list of its own, and both
    with the same list. *)
Module HeapExamples.
#[local] Open Scope string_scope.


Definition shared : Heap.t string Edge.t :=
  Heap.mk {[ 0 := ["A"] ]}
          {[ 0 := Heap.mk_graph 0 [[]]; 1 := Heap.mk_graph 0 [[]] ]}.
End HeapExamples.

(** Graphs a caller holds after an exception it has caught: what
    [add_edge_by_indices(0, 7)] leaves of [abc], and what
    [add_edge_by_indices(0, 7, 3.0)] leaves of [xy]. *)
Module AfterFailure.
Definition abc_half_written : Graph.t string Edge.t :=
  (Graph.add_edge_by_indices 0 7 Examples.abc).2.

Definition xy_half_written : WeightedGraph.t string :=
  (WeightedGraph.add_edge_by_indices 0 7 3 Examples.xy).2.
End AfterFailure.

(** ** Calls on the graphs of a heap *)

Module HeapRuns.
Section HeapRuns.
Context {V : Type} `{EqDecision V}.

(** Calls a client makes, each on the graph object named with it, run
    in order; a raised exception ends the run. *)
Fixpoint do_calls (cs : list (Heap.loc * Graph.call (V:=V)))
    (h : Heap.t V Edge.t) : option (result unit * Heap.t V Edge.t) :=
  match cs with
  | [] => Some (Ok (), h)
  | (g, c) :: cs' =>
      '(r, h') ← Heap.call g (Graph.do_call c) h;
      match r with
      | Ok _ => do_calls cs' h'
      | Raise e => Some (Raise e, h')
      end
  end.

End HeapRuns.
End HeapRuns.

(** * Properties *)

(** ** Python lists *)

Section PyListFacts.
Context {A : Type}.
Implicit Types (l : list A) (i : Z) (k : nat).

Lemma py_index_Some_lt l i k : py_index l i = Some k → k < length l.
Proof.
  unfold py_index. repeat case_decide; intros [= <-]; lia.
Qed.

Lemma py_index_nonneg l i :
  (0 ≤ i < Z.of_nat (length l))%Z → py_index l i = Some (Z.to_nat i).
Proof. intros Hi. unfold py_index. by rewrite decide_True. Qed.

Lemma py_index_in_range l i : in_range (length l) i ↔ is_Some (py_index l i).
Proof.
  unfold in_range, py_index. split.
  - intros Hi. repeat case_decide; eauto. lia.
  - intros [k Hk]. repeat case_decide; try discriminate; lia.
Qed.

Lemma py_index_None l i : py_index l i = None ↔ ¬ in_range (length l) i.
Proof.
  rewrite py_index_in_range, eq_None_not_Some. done.
Qed.

Lemma getitem_Ok l i x :
  getitem l i = Ok x ↔ ∃ k, py_index l i = Some k ∧ l !! k = Some x.
Proof.
  unfold getitem. split.
  - destruct (py_index l i) as [k|]; [|done].
    destruct (l !! k) as [y|] eqn:Hy; [|done]. intros [= ->]. eauto.
  - intros (k & -> & ->). done.
Qed.

Lemma getitem_Raise l i e :
  getitem l i = Raise e ↔ e = IndexError ∧ ¬ in_range (length l) i.
Proof.
  unfold getitem. destruct (py_index l i) as [k|] eqn:Hk.
  - destruct (lookup_lt_is_Some_2 l k) as [x ->]; [by eapply py_index_Some_lt|].
    split; [done|]. intros [_ []]. apply py_index_in_range. eauto.
  - apply py_index_None in Hk. split; [by intros [= <-]|by intros [-> _]].
Qed.

Lemma getitem_in_range l i : in_range (length l) i → ∃ x, getitem l i = Ok x.
Proof.
  intros Hi. destruct (getitem l i) as [x|e] eqn:Hg; [eauto|].
  apply getitem_Raise in Hg as [_ []]. done.
Qed.

Lemma getitem_nonneg l i x :
  (0 ≤ i)%Z → l !! Z.to_nat i = Some x → getitem l i = Ok x.
Proof.
  intros Hi Hx. apply getitem_Ok. exists (Z.to_nat i). split; [|done].
  apply py_index_nonneg. apply lookup_lt_Some in Hx. lia.
Qed.

End PyListFacts.

Lemma foldl_add_foldr (xs : list Z) (a : Z) :
  foldl Z.add a xs = (a + foldr Z.add 0 xs)%Z.
Proof.
  revert a. induction xs as [|x xs IH]; intros a; simpl; [lia|].
  rewrite IH. lia.
Qed.

Lemma py_sum_cons (x : Z) (xs : list Z) : py_sum (x :: xs) = (x + py_sum xs)%Z.
Proof. unfold py_sum. simpl. rewrite !foldl_add_foldr. lia. Qed.

Lemma py_sum_app (xs ys : list Z) : py_sum (xs ++ ys) = (py_sum xs + py_sum ys)%Z.
Proof.
  induction xs as [|x xs IH]; simpl; [done|].
  rewrite !py_sum_cons, IH. lia.
Qed.

Lemma py_sum_lengths {A} (ls : list (list A)) :
  py_sum ((λ l, Z.of_nat (length l)) <$> ls) = Z.of_nat (sum_list (length <$> ls)).
Proof.
  induction ls as [|l ls IH]; [done|].
  rewrite !fmap_cons, py_sum_cons, IH. simpl. lia.
Qed.

Lemma sum_list_alter_append {A} (ls : list (list A)) (k : nat) (x : A) :
  k < length ls →
  sum_list (length <$> alter (λ l, l ++ [x]) k ls) = S (sum_list (length <$> ls)).
Proof.
  revert k. induction ls as [|l ls IH]; intros [|k] Hk; simpl in *; try lia.
  - rewrite length_app. simpl. lia.
  - specialize (IH k). unfold alter, fmap in IH. lia.
Qed.

(** [l.index(x)] finds the first match, and raises exactly when there is none. *)
Section IndexFacts.
Context `{EqDecision A}.
Implicit Types (l : list A) (x : A).

Lemma list_index_None l x : list_index l x = None ↔ x ∉ l.
Proof.
  induction l as [|y l IH]; simpl.
  - split; [intros _; apply not_elem_of_nil|done].
  - case_decide as Hy; [subst|].
    + split; [done|]. intros []. left.
    + rewrite not_elem_of_cons, fmap_None, IH.
      split; [intros ?; split; [congruence|done]|by intros [_ ?]].
Qed.

Lemma list_index_Some l x k : list_index l x = Some k ↔ first_match l x k.
Proof.
  unfold first_match. revert k. induction l as [|y l IH]; intros k; simpl.
  - split; [done|]. by intros [? _].
  - case_decide as Hy; [subst|].
    + split.
      * intros [= <-]. split; [done|]. lia.
      * intros [Hk Hfirst]. destruct k as [|k]; [done|].
        destruct (Hfirst 0); [lia|done].
    + rewrite fmap_Some. split.
      * intros (k' & Hk' & ->). apply IH in Hk' as [Hk' Hfirst].
        split; [done|]. intros [|j] Hj; simpl; [congruence|]. apply Hfirst. lia.
      * intros [Hk Hfirst]. destruct k as [|k]; simpl in *; [congruence|].
        exists k. split; [|done]. apply IH. split; [done|].
        intros j Hj. apply (Hfirst (S j)). lia.
Qed.

Lemma index_Raise l x e : index l x = Raise e ↔ e = ValueError ∧ x ∉ l.
Proof.
  unfold index. destruct (list_index l x) as [k|] eqn:Hk.
  - split; [done|]. intros [_ Hx]. apply list_index_None in Hx. congruence.
  - apply list_index_None in Hk. split; [by intros [= <-]|by intros [-> _]].
Qed.

Lemma index_Ok l x : x ∈ l → ∃ k, index l x = Ok (Z.of_nat k) ∧ first_match l x k.
Proof.
  intros Hx. unfold index. destruct (list_index l x) as [k|] eqn:Hk.
  - exists k. split; [done|]. by apply list_index_Some.
  - apply list_index_None in Hk. done.
Qed.
End IndexFacts.

(** ** Outcomes of [list(map(f, xs))] *)

Section RmapFacts.
Context {A B : Type} (f : A → result B).

Lemma rmap_app xs xs' :
  rmap f (xs ++ xs') = ys ← rmap f xs; ys' ← rmap f xs'; Ok (ys ++ ys').
Proof.
  induction xs as [|x xs IH]; simpl.
  - by destruct (rmap f xs').
  - destruct (f x) as [y|e]; simpl; [|done]. rewrite IH.
    destruct (rmap f xs) as [ys|e]; simpl; [|done].
    by destruct (rmap f xs').
Qed.

Lemma rmap_Forall_Ok xs :
  Forall (λ x, ∃ y, f x = Ok y) xs → ∃ ys, rmap f xs = Ok ys.
Proof.
  induction 1 as [|x xs [y Hy] _ [ys IH]]; simpl; [eauto|].
  rewrite Hy, IH. simpl. eauto.
Qed.

Lemma rmap_Ok_elem xs ys x y :
  rmap f xs = Ok ys → x ∈ xs → f x = Ok y → y ∈ ys.
Proof.
  revert ys. induction xs as [|x' xs IH]; intros ys Hys Hx Hy.
  - by apply elem_of_nil in Hx.
  - simpl in Hys. destruct (f x') as [y'|] eqn:Hy'; [|done].
    destruct (rmap f xs) as [ys'|]; [|done]. simpl in Hys.
    injection Hys as <-. apply elem_of_cons in Hx as [->|Hx].
    + rewrite Hy in Hy'. injection Hy' as <-. left.
    + right. by apply IH.
Qed.
End RmapFacts.

(** ** Graph: one call at a time *)

Section GraphFacts.
Context {V E : Type} `{EqDecision V} `{EdgeLike E}.
Implicit Types (g : Graph.t V E) (e : E) (i u v : Z) (k : nat).

Lemma edges_append_Ok g i e k :
  py_index (Graph._edges g) i = Some k →
  Graph.edges_append i e g =
    (Ok (), Graph.mk (Graph._vertices g)
                     (alter (λ l, l ++ [e]) k (Graph._edges g))).
Proof. intros Hk. unfold Graph.edges_append. by rewrite Hk. Qed.

Lemma edges_append_Raise g i e :
  ¬ in_range (length (Graph._edges g)) i →
  Graph.edges_append i e g = (Raise IndexError, g).
Proof.
  intros Hi. apply py_index_None in Hi. unfold Graph.edges_append. by rewrite Hi.
Qed.

(** The three ways [add_edge] can go.  Both subscripts are checked
    against the adjacency lists, the first before anything is written,
    the second after the first append. *)
Lemma add_edge_Raise_u g e :
  ¬ in_range (length (Graph._edges g)) (edge_u e) →
  Graph.add_edge e g = (Raise IndexError, g).
Proof.
  intros Hu. unfold Graph.add_edge, mbind, M_bind.
  by rewrite edges_append_Raise.
Qed.

Lemma add_edge_Raise_v g e k :
  py_index (Graph._edges g) (edge_u e) = Some k →
  ¬ in_range (length (Graph._edges g)) (edge_v e) →
  Graph.add_edge e g =
    (Raise IndexError,
     Graph.mk (Graph._vertices g) (alter (λ l, l ++ [e]) k (Graph._edges g))).
Proof.
  intros Hk Hv. unfold Graph.add_edge, mbind, M_bind.
  rewrite (edges_append_Ok _ _ _ k) by done.
  rewrite edges_append_Raise; [done|]. simpl. by rewrite length_alter.
Qed.

Lemma add_edge_Ok g e k j :
  py_index (Graph._edges g) (edge_u e) = Some k →
  py_index (Graph._edges g) (edge_v e) = Some j →
  Graph.add_edge e g =
    (Ok (),
     Graph.mk (Graph._vertices g)
       (alter (λ l, l ++ [edge_reversed e]) j
          (alter (λ l, l ++ [e]) k (Graph._edges g)))).
Proof.
  intros Hk Hj. unfold Graph.add_edge, mbind, M_bind.
  rewrite (edges_append_Ok _ _ _ k) by done.
  rewrite (edges_append_Ok _ _ _ j); [done|].
  simpl. unfold py_index in *. by rewrite length_alter.
Qed.

(** A call that returns has written two records; one that raises has
    written at most one. *)
Lemma add_edge_inv g e r g' :
  Graph.add_edge e g = (r, g') →
  Graph._vertices g' = Graph._vertices g ∧
  length (Graph._edges g') = length (Graph._edges g) ∧
  match r with
  | Ok _ => Graph.adjacency_total g' = 2 + Graph.adjacency_total g
  | Raise e => e = IndexError ∧
      Graph.adjacency_total g ≤ Graph.adjacency_total g' ≤ 1 + Graph.adjacency_total g
  end.
Proof.
  intros Hrun. unfold Graph.adjacency_total.
  destruct (py_index (Graph._edges g) (edge_u e)) as [k|] eqn:Hk.
  - pose proof (py_index_Some_lt _ _ _ Hk) as Hklt.
    destruct (py_index (Graph._edges g) (edge_v e)) as [j|] eqn:Hj.
    + pose proof (py_index_Some_lt _ _ _ Hj) as Hjlt.
      rewrite (add_edge_Ok _ _ k j) in Hrun by done. injection Hrun as <- <-.
      simpl. rewrite !length_alter. split_and!; [done..|].
      rewrite !sum_list_alter_append; rewrite ?length_alter; lia.
    + apply py_index_None in Hj.
      rewrite (add_edge_Raise_v _ _ k) in Hrun by done. injection Hrun as <- <-.
      simpl. rewrite !length_alter. split_and!; try done;
        rewrite !sum_list_alter_append; lia.
  - apply py_index_None in Hk.
    rewrite add_edge_Raise_u in Hrun by done. injection Hrun as <- <-.
    split_and!; try done; lia.
Qed.

Lemma edge_count_adjacency_total g :
  Graph.edge_count g = Z.of_nat (Graph.adjacency_total g).
Proof. apply py_sum_lengths. Qed.

Lemma add_vertex_inv g (x : V) :
  ∃ g', Graph.add_vertex x g = (Ok (Graph.vertex_count g), g') ∧
    Graph._vertices g' = Graph._vertices g ++ [x] ∧
    Graph._edges g' = Graph._edges g ++ [[]] ∧
    Graph.adjacency_total g' = Graph.adjacency_total g.
Proof.
  exists (Graph.mk (Graph._vertices g ++ [x]) (Graph._edges g ++ [[]])).
  split_and!; [|done..|].
  - unfold Graph.add_vertex, Graph.vertex_count. simpl.
    rewrite length_app. simpl. do 2 f_equal. lia.
  - unfold Graph.adjacency_total. simpl.
    rewrite fmap_app, sum_list_with_app. simpl. lia.
Qed.
End GraphFacts.

(** ** Graph: the well-formed states *)

Section WfFacts.
Context {V E : Type} `{EqDecision V} `{EdgeLike E}.
Implicit Types (g : Graph.t V E) (e : E) (i : Z) (k j : nat).

Lemma wf_init (vs : list V) : Graph.wf (Graph.init (E:=E) vs).
Proof.
  split; simpl; [by rewrite length_fmap|].
  apply Forall_fmap, Forall_forall. intros x _. simpl. constructor.
Qed.

Lemma in_range_mono n m i : n ≤ m → in_range n i → in_range m i.
Proof. unfold in_range. lia. Qed.

Lemma wf_add_vertex g (x : V) r g' :
  Graph.wf g → Graph.add_vertex x g = (r, g') → Graph.wf g'.
Proof.
  intros [Hlen Hall] [= _ <-]. split; simpl.
  - rewrite !length_app, Hlen. done.
  - apply Forall_app. split; [|by apply Forall_singleton].
    eapply Forall_impl; [exact Hall|]. intros es Hes. simpl in Hes.
    eapply Forall_impl; [exact Hes|]. intros e. simpl.
    apply in_range_mono. rewrite length_app. lia.
Qed.

(** What a call with both subscripts accepted leaves behind. *)
Lemma lookup_after_add_edge (es : list (list E)) k j e1 e2 (i : nat) :
  alter (λ l, l ++ [e2]) j (alter (λ l, l ++ [e1]) k es) !! i =
    (λ l, l ++ (if decide (k = i) then [e1] else [])
            ++ (if decide (j = i) then [e2] else [])) <$> es !! i.
Proof.
  destruct (decide (j = i)) as [->|Hj], (decide (k = i)) as [->|Hk];
    rewrite ?list_lookup_alter_eq, ?list_lookup_alter_ne by done;
    rewrite ?list_lookup_alter_eq, ?list_lookup_alter_ne by done;
    destruct (es !! i) as [l|]; simpl; try done.
  - by rewrite <-(assoc_L (++)).
  - by rewrite (right_id_L [] (++)).
Qed.

Lemma wf_add_edge g e g' :
  Graph.wf g →
  edge_v (edge_reversed e) = edge_u e →
  Graph.add_edge e g = (Ok (), g') →
  Graph.wf g'.
Proof.
  intros [Hlen Hall] Hrev Hrun.
  destruct (py_index (Graph._edges g) (edge_u e)) as [k|] eqn:Hk.
  2:{ apply py_index_None in Hk. by rewrite add_edge_Raise_u in Hrun. }
  destruct (py_index (Graph._edges g) (edge_v e)) as [j|] eqn:Hj.
  2:{ apply py_index_None in Hj. by rewrite (add_edge_Raise_v _ _ k) in Hrun. }
  assert (in_range (length (Graph._vertices g)) (edge_u e)) as Hu.
  { rewrite <-Hlen. apply py_index_in_range. eauto. }
  assert (in_range (length (Graph._vertices g)) (edge_v e)) as Hv.
  { rewrite <-Hlen. apply py_index_in_range. eauto. }
  rewrite (add_edge_Ok _ _ k j) in Hrun by done. injection Hrun as <-.
  split; simpl; [by rewrite !length_alter|].
  apply Forall_alter; [apply Forall_alter; [done|]|].
  - intros l _ Hl. apply Forall_app. split; [done|]. by apply Forall_singleton.
  - intros l _ Hl. apply Forall_app. split; [done|].
    apply Forall_singleton. by rewrite Hrev.
Qed.

Lemma vertex_at_in_range g i :
  in_range (length (Graph._vertices g)) i → ∃ x, Graph.vertex_at g i = Ok x.
Proof. apply getitem_in_range. Qed.

(** In a well-formed graph every adjacency list can be turned into
    the list of neighbours. *)
Lemma wf_neighbors g i es :
  Graph.wf g → Graph.edges_for_index g i = Ok es →
  ∃ xs, Graph.neighbors_for_index g i = Ok xs ∧
        rmap (Graph.vertex_at g) (edge_v <$> es) = Ok xs.
Proof.
  intros [_ Hall] Hes. unfold Graph.neighbors_for_index.
  unfold Graph.edges_for_index in Hes. rewrite Hes. simpl.
  apply getitem_Ok in Hes as (k & _ & Hk).
  destruct (rmap_Forall_Ok (Graph.vertex_at g) (edge_v <$> es)) as [xs Hxs]; [|eauto].
  apply Forall_fmap. eapply Forall_impl; [exact (Forall_lookup_1 _ _ _ _ Hall Hk)|].
  intros e He. simpl in *. by apply vertex_at_in_range.
Qed.

(** [add_edge] with both endpoints among the vertices of a well-formed
    graph: it returns, and the two adjacency lists have grown at the end. *)
Lemma add_edge_in_range g e :
  Graph.wf g →
  edge_v (edge_reversed e) = edge_u e →
  (0 ≤ edge_u e < Graph.vertex_count g)%Z →
  (0 ≤ edge_v e < Graph.vertex_count g)%Z →
  ∃ g' lu lv,
    Graph.edges_for_index g (edge_u e) = Ok lu ∧
    Graph.edges_for_index g (edge_v e) = Ok lv ∧
    Graph.add_edge e g = (Ok (), g') ∧
    Graph._vertices g' = Graph._vertices g ∧
    Graph.wf g' ∧
    Graph.edges_for_index g' (edge_u e) =
      Ok (lu ++ [e] ++ if decide (edge_u e = edge_v e)
                       then [edge_reversed e] else []) ∧
    Graph.edges_for_index g' (edge_v e) =
      Ok (lv ++ (if decide (edge_u e = edge_v e) then [e] else [])
             ++ [edge_reversed e]).
Proof.
  intros Hwf Hrev Hu Hv. pose proof Hwf as [Hlen _].
  unfold Graph.vertex_count in Hu, Hv. rewrite <-Hlen in Hu, Hv.
  pose proof (py_index_nonneg _ _ Hu) as Hk.
  pose proof (py_index_nonneg _ _ Hv) as Hj.
  destruct (lookup_lt_is_Some_2 (Graph._edges g) (Z.to_nat (edge_u e)))
    as [lu Hlu]; [lia|].
  destruct (lookup_lt_is_Some_2 (Graph._edges g) (Z.to_nat (edge_v e)))
    as [lv Hlv]; [lia|].
  pose proof (add_edge_Ok g e _ _ Hk Hj) as Hrun.
  eexists _, lu, lv. split_and!; [..|exact Hrun|done| | |].
  - apply getitem_nonneg; [lia|done].
  - apply getitem_nonneg; [lia|done].
  - by eapply wf_add_edge.
  - apply getitem_nonneg; [lia|]. simpl.
    rewrite lookup_after_add_edge, Hlu. simpl.
    rewrite decide_True by done.
    do 3 f_equal. repeat case_decide; try done; lia.
  - apply getitem_nonneg; [lia|]. simpl.
    rewrite lookup_after_add_edge, Hlv. simpl.
    rewrite (decide_True (P:=Z.to_nat (edge_v e) = _)) by done.
    do 2 f_equal. f_equal. repeat case_decide; try done; lia.
Qed.
End WfFacts.

(** ** Graph: the methods *)

Section GraphClaims.
Context {V : Type} `{EqDecision V}.
Implicit Types (g : Graph.t V Edge.t) (u v : Z).

(** C7: [add_vertex(value)] never raises.  It appends [value] to the
    vertex sequence and an empty adjacency list to the edge sequence, and
    it returns [vertex_count() - 1] as counted after the insertion, which
    is the subscript under which the new vertex is found. *)
Theorem add_vertex_appends_and_returns_index {E} (self : Graph.t V E) (value : V) :
  ∃ self',
    Graph.add_vertex value self = (Ok (Graph.vertex_count self' - 1)%Z, self') ∧
    Graph._vertices self' = Graph._vertices self ++ [value] ∧
    Graph._edges self' = Graph._edges self ++ [[]] ∧
    Graph.vertex_at self' (Graph.vertex_count self' - 1) = Ok value.
Proof.
  exists (Graph.mk (Graph._vertices self ++ [value]) (Graph._edges self ++ [[]])).
  split_and!; try done.
  unfold Graph.vertex_at, Graph.vertex_count. simpl.
  apply getitem_nonneg.
  - rewrite length_app. simpl. lia.
  - rewrite length_app. simpl.
    replace (Z.to_nat _) with (length (Graph._vertices self) + 0) by lia.
    by rewrite lookup_app_r, Nat.add_comm, Nat.add_sub by lia.
Qed.

Lemma Edge_reversed_v (e : Edge.t) : edge_v (edge_reversed e) = edge_u e.
Proof. done. Qed.

(** C3, amended: in a well-formed graph, one that has an adjacency list
    for each vertex and whose stored records all lead to a vertex,
    [add_edge_by_indices(u, v)] with [u] and
    [v] in [[0, vertex_count())] returns, having appended [Edge(u, v)] to
    the adjacency list of [u] and [Edge(v, u)] to that of [v]; afterwards
    [vertex_at(v)] is among [neighbors_for_index(u)] and [vertex_at(u)]
    among [neighbors_for_index(v)]. *)
Theorem add_edge_by_indices_symmetric g u v :
  Graph.wf g →
  (0 ≤ u < Graph.vertex_count g)%Z →
  (0 ≤ v < Graph.vertex_count g)%Z →
  ∃ g' lu lv xu xv nu nv,
    Graph.edges_for_index g u = Ok lu ∧
    Graph.edges_for_index g v = Ok lv ∧
    Graph.add_edge_by_indices u v g = (Ok (), g') ∧
    Graph.edges_for_index g' u =
      Ok (lu ++ [Edge.mk u v] ++ if decide (u = v) then [Edge.mk v u] else []) ∧
    Graph.edges_for_index g' v =
      Ok (lv ++ (if decide (u = v) then [Edge.mk u v] else []) ++ [Edge.mk v u]) ∧
    Graph.vertex_at g' u = Ok xu ∧
    Graph.vertex_at g' v = Ok xv ∧
    Graph.neighbors_for_index g' u = Ok nu ∧ xv ∈ nu ∧
    Graph.neighbors_for_index g' v = Ok nv ∧ xu ∈ nv.
Proof.
  intros Hwf Hu Hv.
  destruct (add_edge_in_range g (Edge.mk u v) Hwf (Edge_reversed_v _) Hu Hv)
    as (g' & lu & lv & Hlu & Hlv & Hrun & Hvs & Hwf' & Hlu' & Hlv').
  simpl in Hlu, Hlv, Hlu', Hlv'.
  change (Edge.reversed (Edge.mk u v)) with (Edge.mk v u) in Hlu', Hlv'.
  destruct (vertex_at_in_range g' u) as [xu Hxu].
  { rewrite Hvs. unfold Graph.vertex_count, in_range in *. lia. }
  destruct (vertex_at_in_range g' v) as [xv Hxv].
  { rewrite Hvs. unfold Graph.vertex_count, in_range in *. lia. }
  destruct (wf_neighbors g' u _ Hwf' Hlu') as (nu & Hnu & Hmu).
  destruct (wf_neighbors g' v _ Hwf' Hlv') as (nv & Hnv & Hmv).
  exists g', lu, lv, xu, xv, nu, nv. split_and!; try done.
  - eapply rmap_Ok_elem; [exact Hmu| |exact Hxv].
    rewrite !fmap_app. apply elem_of_app. right. left.
  - eapply rmap_Ok_elem; [exact Hmv| |exact Hxu].
    rewrite !fmap_app, !elem_of_app. right. right. left.
Qed.

(** C10, amended: in a well-formed graph the self-loop
    [add_edge_by_indices(u, u)]
    with [u] in range returns and appends two records to the adjacency
    list of [u], [Edge(u, u)] and its reversal, which equals it;
    [edge_count()] grows by exactly 2 and [neighbors_for_index(u)] gains
    [vertex_at(u)] twice. *)
Theorem add_edge_by_indices_self_loop g u :
  Graph.wf g →
  (0 ≤ u < Graph.vertex_count g)%Z →
  ∃ g' lu xu nu,
    Graph.edges_for_index g u = Ok lu ∧
    Graph.vertex_at g u = Ok xu ∧
    Graph.neighbors_for_index g u = Ok nu ∧
    Graph.add_edge_by_indices u u g = (Ok (), g') ∧
    Edge.reversed (Edge.mk u u) = Edge.mk u u ∧
    Graph.edges_for_index g' u =
      Ok (lu ++ [Edge.mk u u; Edge.reversed (Edge.mk u u)]) ∧
    Graph.edge_count g' = (Graph.edge_count g + 2)%Z ∧
    Graph.neighbors_for_index g' u = Ok (nu ++ [xu; xu]).
Proof.
  intros Hwf Hu.
  destruct (add_edge_in_range g (Edge.mk u u) Hwf (Edge_reversed_v _) Hu Hu)
    as (g' & lu & _ & Hlu & _ & Hrun & Hvs & Hwf' & Hlu' & _).
  simpl in Hlu, Hlu'. rewrite decide_True in Hlu' by done.
  destruct (vertex_at_in_range g u) as [xu Hxu].
  { unfold Graph.vertex_count, in_range in *. lia. }
  destruct (wf_neighbors g u _ Hwf Hlu) as (nu & Hnu & Hmu).
  exists g', lu, xu, nu. split_and!; try done.
  - rewrite !edge_count_adjacency_total.
    apply add_edge_inv in Hrun as (_ & _ & ->). lia.
  - unfold Graph.neighbors_for_index.
    unfold Graph.edges_for_index in Hlu'. rewrite Hlu'. simpl.
    rewrite fmap_app, rmap_app.
    replace (Graph.vertex_at g') with (Graph.vertex_at g)
      by (unfold Graph.vertex_at; by rewrite Hvs).
    simpl in Hmu. rewrite Hmu. simpl. by rewrite Hxu.
Qed.

Lemma add_edge_by_vertices_unfold g (first second : V) :
  Graph.add_edge_by_vertices first second g =
    match index (Graph._vertices g) first with
    | Raise e => (Raise e, g)
    | Ok i =>
        match index (Graph._vertices g) second with
        | Raise e => (Raise e, g)
        | Ok j => Graph.add_edge_by_indices i j g
        end
    end.
Proof.
  unfold Graph.add_edge_by_vertices, mbind, M_bind, read.
  destruct (index _ first); [|done]. by destruct (index _ second).
Qed.

(** C5: if [first] or [second] is not in the vertex sequence,
    [add_edge_by_vertices(first, second)] raises [ValueError] (the
    not-found error of [list.index]) and the graph is as before; if both
    are present, each is resolved to the position of its first match and
    the call does what [add_edge_by_indices] does on those positions. *)
Theorem add_edge_by_vertices_resolves g (first second : V) :
  (first ∉ Graph._vertices g ∨ second ∉ Graph._vertices g →
   Graph.add_edge_by_vertices first second g = (Raise ValueError, g)) ∧
  (first ∈ Graph._vertices g → second ∈ Graph._vertices g →
   ∃ i j : nat,
     first_match (Graph._vertices g) first i ∧
     first_match (Graph._vertices g) second j ∧
     Graph.index_of g first = Ok (Z.of_nat i) ∧
     Graph.index_of g second = Ok (Z.of_nat j) ∧
     Graph.add_edge_by_vertices first second g =
       Graph.add_edge_by_indices (Z.of_nat i) (Z.of_nat j) g).
Proof.
  rewrite add_edge_by_vertices_unfold. split.
  - intros Hnot.
    destruct (index (Graph._vertices g) first) as [i|e] eqn:Hi.
    + destruct Hnot as [Hfirst|Hsecond].
      * assert (index (Graph._vertices g) first = Raise ValueError) as Hr
          by by apply index_Raise.
        congruence.
      * assert (index (Graph._vertices g) second = Raise ValueError) as ->
          by by apply index_Raise.
        done.
    + apply index_Raise in Hi as [-> _]. done.
  - intros Hfirst Hsecond.
    destruct (index_Ok _ _ Hfirst) as (i & Hi & Hmi).
    destruct (index_Ok _ _ Hsecond) as (j & Hj & Hmj).
    exists i, j. unfold Graph.index_of. rewrite Hi, Hj. done.
Qed.

Lemma do_call_adjacency_total g (c : Graph.call) g' :
  Graph.do_call c g = (Ok (), g') →
  Graph.adjacency_total g' =
    (if Graph.is_add_edge c then 2 else 0) + Graph.adjacency_total g.
Proof.
  destruct c as [x|e|u v|a b]; simpl.
  - destruct (add_vertex_inv g x) as (g1 & Hrun & _ & _ & Htot).
    unfold mbind, M_bind. rewrite Hrun. by intros [= <-].
  - intros Hrun. by apply add_edge_inv in Hrun as (_ & _ & ->).
  - intros Hrun. by apply add_edge_inv in Hrun as (_ & _ & ->).
  - rewrite add_edge_by_vertices_unfold.
    destruct (index _ a); [|done]. destruct (index _ b); [|done].
    intros Hrun. by apply add_edge_inv in Hrun as (_ & _ & ->).
Qed.

Lemma do_calls_adjacency_total (cs : list Graph.call) g g' :
  Graph.do_calls cs g = (Ok (), g') →
  Graph.adjacency_total g' =
    2 * Graph.add_edge_calls cs + Graph.adjacency_total g.
Proof.
  revert g. induction cs as [|c cs IH]; intros g; simpl.
  - by intros [= <-].
  - unfold mbind, M_bind.
    destruct (Graph.do_call c g) as [[[]|e] g1] eqn:Hc; [|done].
    intros Hrun. apply IH in Hrun. apply do_call_adjacency_total in Hc.
    unfold Graph.add_edge_calls in *.
    destruct (Graph.is_add_edge c) eqn:Hadd.
    + rewrite filter_cons_True by done. simpl. lia.
    + rewrite filter_cons_False by (by rewrite Hadd). lia.
Qed.

Lemma no_edges_adjacency_total g :
  Forall (λ l, l = []) (Graph._edges g) → Graph.adjacency_total g = 0.
Proof.
  unfold Graph.adjacency_total. induction 1 as [|l ls -> _ IH]; [done|].
  rewrite fmap_cons. simpl. exact IH.
Qed.

(** C4: [edge_count()] is the sum of the lengths of the adjacency
    lists; and when a run of calls on a graph without edges has returned
    from every call, [edge_count()] is twice the number of [add_edge],
    [add_edge_by_indices] and [add_edge_by_vertices] calls in it. *)
Theorem edge_count_twice_add_edge_calls :
  (∀ g, Graph.edge_count g = Z.of_nat (Graph.adjacency_total g)) ∧
  (∀ g (cs : list Graph.call) g',
     Forall (λ l, l = []) (Graph._edges g) →
     Graph.do_calls cs g = (Ok (), g') →
     Graph.edge_count g' = (2 * Z.of_nat (Graph.add_edge_calls cs))%Z).
Proof.
  split; [apply edge_count_adjacency_total|].
  intros g cs g' Hempty Hrun. rewrite edge_count_adjacency_total.
  apply do_calls_adjacency_total in Hrun.
  apply no_edges_adjacency_total in Hempty. lia.
Qed.

(** The well-formed states are closed under runs of returned calls. *)
Lemma do_call_wf g (c : Graph.call) g' :
  Graph.wf g → Graph.do_call c g = (Ok (), g') → Graph.wf g'.
Proof.
  intros Hwf. destruct c as [x|e|u v|a b]; simpl.
  - unfold mbind, M_bind.
    destruct (Graph.add_vertex x g) as [[i|e] g1] eqn:Hrun; [|done].
    intros [= <-]. by eapply wf_add_vertex.
  - by apply wf_add_edge.
  - by apply wf_add_edge.
  - rewrite add_edge_by_vertices_unfold.
    destruct (index _ a); [|done]. destruct (index _ b); [|done].
    by apply wf_add_edge.
Qed.

Lemma do_calls_wf g (cs : list Graph.call) g' :
  Graph.wf g → Graph.do_calls cs g = (Ok (), g') → Graph.wf g'.
Proof.
  revert g. induction cs as [|c cs IH]; intros g Hwf; simpl.
  - by intros [= <-].
  - unfold mbind, M_bind.
    destruct (Graph.do_call c g) as [[[]|e] g1] eqn:Hc; [|done].
    apply IH. by eapply do_call_wf.
Qed.

Lemma alter_append_insert {A} (ls : list (list A)) (k : nat) (l : list A) (x : A) :
  ls !! k = Some l → alter (λ l, l ++ [x]) k ls = <[k := l ++ [x]]> ls.
Proof.
  intros Hl. rewrite list_insert_alter. apply list_alter_ext; [|done].
  intros l' Hl'. congruence.
Qed.

(** The three ways [add_edge_by_indices(u, v)], which is [add_edge] on
    [Edge(u, v)], can go on a graph with one adjacency list per vertex,
    [n] of them.  It raises [IndexError] exactly when [u] or [v] is
    outside [[-n, n)]: a negative subscript from [-n] on counts from the
    end and is accepted.  When [u] is outside, nothing has been written.
    When [u] is inside and [v] outside, the first of the two appends has
    been made by the time the exception is raised. *)
Theorem add_edge_by_indices_out_of_range g u v :
  length (Graph._edges g) = length (Graph._vertices g) →
  Graph.add_edge (Edge.mk u v) g = Graph.add_edge_by_indices u v g ∧
  (in_range (length (Graph._vertices g)) u →
   in_range (length (Graph._vertices g)) v →
   ∃ g', Graph.add_edge_by_indices u v g = (Ok (), g')) ∧
  (¬ in_range (length (Graph._vertices g)) u →
   Graph.add_edge_by_indices u v g = (Raise IndexError, g)) ∧
  (in_range (length (Graph._vertices g)) u →
   ¬ in_range (length (Graph._vertices g)) v →
   ∃ k lu,
     py_index (Graph._edges g) u = Some k ∧
     Graph._edges g !! k = Some lu ∧
     Graph.add_edge_by_indices u v g =
       (Raise IndexError,
        Graph.mk (Graph._vertices g)
                 (<[k := lu ++ [Edge.mk u v]]> (Graph._edges g)))).
Proof.
  intros Hlen. rewrite <-Hlen. unfold Graph.add_edge_by_indices.
  split_and!; [done|..].
  - intros [k Hk]%py_index_in_range [j Hj]%py_index_in_range.
    eexists. by apply (add_edge_Ok g (Edge.mk u v) k j).
  - intros Hu. by apply add_edge_Raise_u.
  - intros [k Hk]%py_index_in_range Hv.
    destruct (lookup_lt_is_Some_2 (Graph._edges g) k) as [lu Hlu];
      [by eapply py_index_Some_lt|].
    exists k, lu. split_and!; [done..|].
    rewrite (add_edge_Raise_v g (Edge.mk u v) k) by done.
    by rewrite (alter_append_insert _ _ lu).
Qed.
End GraphClaims.

(** ** WeightedGraph *)

Section WeightedGraphClaims.
Context {V : Type} `{EqDecision V}.
Implicit Types (g : WeightedGraph.t V) (u v : Z) (w : float).

Lemma WeightedEdge_reversed_v (e : WeightedEdge.t) :
  edge_v (edge_reversed e) = edge_u e.
Proof. done. Qed.

Lemma wf_neighbors_with_weights g (i : Z) es :
  Graph.wf g → Graph.edges_for_index g i = Ok es →
  ∃ xs, WeightedGraph.neighbors_for_index_with_weights g i = Ok xs ∧
        rmap (λ edge, x ← Graph.vertex_at g (WeightedEdge.v edge);
                      Ok (x, WeightedEdge.weight edge)) es = Ok xs.
Proof.
  intros [_ Hall] Hes. unfold WeightedGraph.neighbors_for_index_with_weights.
  rewrite Hes. simpl. apply getitem_Ok in Hes as (k & _ & Hk).
  match goal with |- ∃ xs, ?r = _ ∧ _ => destruct r as [xs|e] eqn:Hr end;
    [eauto|].
  destruct (rmap_Forall_Ok
    (λ edge, x ← Graph.vertex_at g (WeightedEdge.v edge);
             Ok (x, WeightedEdge.weight edge)) es) as [xs Hxs]; [|congruence].
  eapply Forall_impl; [exact (Forall_lookup_1 _ _ _ _ Hall Hk)|].
  intros edge Hedge. simpl in Hedge.
  destruct (vertex_at_in_range g _ Hedge) as [x Hx].
  rewrite Hx. simpl. eauto.
Qed.

Lemma weighted_add_edge_by_indices_edge_count g u v w g' :
  WeightedGraph.add_edge_by_indices u v w g = (Ok (), g') →
  Graph.edge_count g' = (Graph.edge_count g + 2)%Z.
Proof.
  intros (_ & _ & Htot)%add_edge_inv.
  rewrite !edge_count_adjacency_total, Htot. lia.
Qed.

(** C6, amended: in a well-formed weighted graph, after
    [add_edge_by_indices(u, v, w)] with [u] and [v] in range the pair
    [(vertex_at(v), w)] is in [neighbors_for_index_with_weights(u)], and
    the entry appended to the adjacency list of [v] is the reversal
    [WeightedEdge(v, u, w)], with the same weight. *)
Theorem weighted_add_edge_by_indices_neighbors g u v w :
  Graph.wf g →
  (0 ≤ u < Graph.vertex_count g)%Z →
  (0 ≤ v < Graph.vertex_count g)%Z →
  ∃ g' lv xv nu,
    Graph.edges_for_index g v = Ok lv ∧
    WeightedGraph.add_edge_by_indices u v w g = (Ok (), g') ∧
    Graph.vertex_at g' v = Ok xv ∧
    WeightedGraph.neighbors_for_index_with_weights g' u = Ok nu ∧
    (xv, w) ∈ nu ∧
    WeightedEdge.reversed (WeightedEdge.mk u v w) = WeightedEdge.mk v u w ∧
    Graph.edges_for_index g' v =
      Ok (lv ++ (if decide (u = v) then [WeightedEdge.mk u v w] else [])
             ++ [WeightedEdge.mk v u w]).
Proof.
  intros Hwf Hu Hv.
  destruct (add_edge_in_range g (WeightedEdge.mk u v w) Hwf
              (WeightedEdge_reversed_v _) Hu Hv)
    as (g' & lu & lv & Hlu & Hlv & Hrun & Hvs & Hwf' & Hlu' & Hlv').
  simpl in Hlu, Hlv, Hlu', Hlv'.
  destruct (vertex_at_in_range g' v) as [xv Hxv].
  { rewrite Hvs. unfold Graph.vertex_count, in_range in *. lia. }
  destruct (wf_neighbors_with_weights g' u _ Hwf' Hlu') as (nu & Hnu & Hmu).
  exists g', lv, xv, nu. split_and!; try done.
  eapply (rmap_Ok_elem _ _ _ (WeightedEdge.mk u v w)); [exact Hmu| |].
  - apply elem_of_app. right. left.
  - simpl. by rewrite Hxv.
Qed.
End WeightedGraphClaims.

(** C9: [a < b] on [WeightedEdge] values is [a.weight < b.weight] on
    the weights, whatever the endpoints are; and sorting three edges of
    weights 5.0, 1.0, 3.0 by it gives the weights 1.0, 3.0, 5.0. *)
Theorem WeightedEdge_lt_by_weight :
  (∀ a b : WeightedEdge.t,
     WeightedEdge.lt a b =
     PrimFloat.ltb (WeightedEdge.weight a) (WeightedEdge.weight b)) ∧
  (∀ (u v u' v' : Z) (w w' : float),
     WeightedEdge.lt (WeightedEdge.mk u v w) (WeightedEdge.mk u' v' w') =
     PrimFloat.ltb w w') ∧
  (∀ u1 v1 u2 v2 u3 v3 : Z,
     WeightedEdge.weight <$>
       sorted WeightedEdge.lt
         [WeightedEdge.mk u1 v1 5; WeightedEdge.mk u2 v2 1;
          WeightedEdge.mk u3 v3 3] =
     [1; 3; 5]%float).
Proof. split_and!; [done..|]. intros. reflexivity. Qed.

Example sorted_is_stable :
  sorted WeightedEdge.lt
    [WeightedEdge.mk 0 1 2; WeightedEdge.mk 1 2 1; WeightedEdge.mk 2 3 2] =
    [WeightedEdge.mk 1 2 1; WeightedEdge.mk 0 1 2; WeightedEdge.mk 2 3 2].
Proof. reflexivity. Qed.

(** ** Sharing of the vertex list *)

(** On its own a graph keeps one adjacency list per vertex, through
    every call, returned or raised. *)
Lemma do_call_length {V} `{EqDecision V} (g : Graph.t V Edge.t) c r g' :
  length (Graph._edges g) = length (Graph._vertices g) →
  Graph.do_call c g = (r, g') →
  length (Graph._edges g') = length (Graph._vertices g').
Proof.
  intros Hlen. destruct c as [x|e|u v|a b]; simpl.
  - unfold mbind, M_bind. simpl. intros [= _ <-]. simpl.
    rewrite !length_app, Hlen. done.
  - intros (-> & -> & _)%add_edge_inv. done.
  - intros (-> & -> & _)%add_edge_inv. done.
  - rewrite add_edge_by_vertices_unfold.
    destruct (index _ a); [|by intros [= _ <-]].
    destruct (index _ b); [|by intros [= _ <-]].
    intros (-> & -> & _)%add_edge_inv. done.
Qed.

Lemma do_calls_length {V} `{EqDecision V} (g : Graph.t V Edge.t) cs r g' :
  length (Graph._edges g) = length (Graph._vertices g) →
  Graph.do_calls cs g = (r, g') →
  length (Graph._edges g') = length (Graph._vertices g').
Proof.
  revert g. induction cs as [|c cs IH]; intros g Hlen; simpl.
  - by intros [= _ <-].
  - unfold mbind, M_bind.
    destruct (Graph.do_call c g) as [[[]|e] g1] eqn:Hc.
    + apply IH. by eapply do_call_length.
    + intros [= _ <-]. by eapply do_call_length.
Qed.

Lemma init_length {V E} (vertices : list V) :
  length (Graph._edges (Graph.init (E:=E) vertices)) =
  length (Graph._vertices (Graph.init (E:=E) vertices)).
Proof. simpl. by rewrite length_fmap. Qed.


(** C2: two graphs made by [Graph()] hold the same default list.  After
    [add_vertex] on the first, the second has one vertex and no
    adjacency list. *)
Theorem default_vertices_shared :
  Examples.two_default_graphs =
    Some (Graph.mk ["a"%string] [[]], Graph.mk ["a"%string] []) ∧
  Graph.vertex_count (V:=string) (E:=Edge.t) (Graph.mk ["a"%string] []) = 1%Z ∧
  length (Graph._edges (V:=string) (E:=Edge.t) (Graph.mk ["a"%string] [])) = 0.
Proof. split_and!; by vm_compute. Qed.

Example separate_vertices_not_shared :
  Examples.two_separate_graphs =
    Some (Graph.mk ["a"%string] [[]], Graph.mk [] []).
Proof. by vm_compute. Qed.

(** C8: on a graph of string vertices [edges_for_vertex] raises
    [TypeError], where [edges_for_index(index_of(vertex))] returns the
    adjacency list; on integer vertices it subscripts with the vertex
    value. *)
Theorem edges_for_vertex_subscripts_with_value :
  Graph.edges_for_vertex Examples.abc_path "B"%string = Raise TypeError ∧
  (i ← Graph.index_of Examples.abc_path "B"%string;
   Graph.edges_for_index Examples.abc_path i) = Ok [Edge.mk 1 0; Edge.mk 1 2] ∧
  Graph.edges_for_vertex (E:=Edge.t) (Graph.init [10; 20]%Z) 10%Z
    = Raise IndexError.
Proof. split_and!; by vm_compute. Qed.

(** ** The methods on concrete graphs *)

Ltac by_decide := apply (bool_decide_unpack _); vm_compute; exact I.

Section Concrete.
#[local] Open Scope string_scope.
#[local] Open Scope list_scope.

(** C1: on the graph of the single vertex ["A"],
    [add_edge_by_indices(0, 1)], like [add_edge] on [Edge(0, 1)], has
    [1] out of range and raises [IndexError], but the graph is not as
    it was: [Edge(0, 1)] is in the adjacency list of vertex 0 by then. *)
Lemma add_edge_by_indices_partial_mutation :
  ¬ (0 ≤ 1 < Graph.vertex_count Examples.single)%Z ∧
  Graph.add_edge_by_indices 0 1 Examples.single =
    (Raise IndexError, Graph.mk ["A"] [[Edge.mk 0 1]]) ∧
  Graph.add_edge (Edge.mk 0 1) Examples.single =
    (Raise IndexError, Graph.mk ["A"] [[Edge.mk 0 1]]) ∧
  Graph.mk ["A"] [[Edge.mk 0 1]] ≠ Examples.single.
Proof.
  split_and!; [|reflexivity|reflexivity|discriminate].
  unfold Graph.vertex_count. simpl. lia.
Qed.

Example add_edge_by_indices_negative :
  Graph.add_edge_by_indices (-1) (-3) Examples.abc =
    (Ok (), Graph.mk ["A"; "B"; "C"]
                     [[Edge.mk (-3) (-1)]; []; [Edge.mk (-1) (-3)]]).
Proof. reflexivity. Qed.

Lemma add_edge_by_indices_out_of_range_witness :
  length (Graph._edges Examples.single) = length (Graph._vertices Examples.single) ∧
  in_range 1 0 ∧ ¬ in_range 1 1 ∧
  ∃ k lu,
    py_index (Graph._edges Examples.single) 0 = Some k ∧
    Graph._edges Examples.single !! k = Some lu ∧
    Graph.add_edge_by_indices 0 1 Examples.single =
      (Raise IndexError,
       Graph.mk (Graph._vertices Examples.single)
                (<[k := lu ++ [Edge.mk 0 1]]> (Graph._edges Examples.single))).
Proof.
  assert (length (Graph._edges Examples.single) =
          length (Graph._vertices Examples.single)) as Hlen by reflexivity.
  assert (in_range 1 0) as Hu by (unfold in_range; lia).
  assert (¬ in_range 1 1) as Hv by (unfold in_range; lia).
  split_and!; [done..|].
  exact (proj2 (proj2 (proj2
    (add_edge_by_indices_out_of_range Examples.single 0 1 Hlen))) Hu Hv).
Defined.

Lemma add_edge_by_indices_symmetric_witness :
  Graph.wf Examples.abc ∧
  ∃ g' nu nv,
    Graph.add_edge_by_indices 0 1 Examples.abc = (Ok (), g') ∧
    Graph.neighbors_for_index g' 0 = Ok nu ∧ "B" ∈ nu ∧
    Graph.neighbors_for_index g' 1 = Ok nv ∧ "A" ∈ nv.
Proof.
  assert (Graph.wf Examples.abc) as Hwf by by_decide.
  split; [done|].
  destruct (add_edge_by_indices_symmetric Examples.abc 0 1 Hwf)
    as (g' & lu & lv & xu & xv & nu & nv & _ & _ & Hrun & _ & _ &
        Hxu & Hxv & Hnu & Hin_u & Hnv & Hin_v);
    [by vm_compute..|].
  exists g', nu, nv. injection Hrun as <-.
  injection Hxu as <-. injection Hxv as <-. done.
Defined.

Lemma add_edge_by_indices_self_loop_witness :
  Graph.wf Examples.abc_path ∧
  ∃ g',
    Graph.add_edge_by_indices 1 1 Examples.abc_path = (Ok (), g') ∧
    Graph.edges_for_index g' 1 =
      Ok [Edge.mk 1 0; Edge.mk 1 2; Edge.mk 1 1; Edge.mk 1 1] ∧
    Graph.edge_count g' = 6%Z ∧
    Graph.neighbors_for_index g' 1 = Ok ["A"; "C"; "B"; "B"].
Proof.
  assert (Graph.wf Examples.abc_path) as Hwf by by_decide.
  split; [done|].
  destruct (add_edge_by_indices_self_loop Examples.abc_path 1 Hwf)
    as (g' & lu & xu & nu & Hlu & Hxu & Hnu & Hrun & _ & Hlu' & Hcount & Hnu');
    [by vm_compute|].
  exists g'. injection Hlu as <-. injection Hxu as <-. injection Hnu as <-.
  done.
Defined.

Lemma edge_count_twice_add_edge_calls_witness :
  Graph.edge_count
    (Graph.do_calls [Graph.AddEdgeByVertices "A" "B"; Graph.AddVertex "D";
                     Graph.AddEdgeByIndices 3 0; Graph.AddEdge (Edge.mk 2 2)]
                    Examples.abc).2 = 6%Z.
Proof.
  apply (proj2 edge_count_twice_add_edge_calls Examples.abc
           [Graph.AddEdgeByVertices "A" "B"; Graph.AddVertex "D";
            Graph.AddEdgeByIndices 3 0; Graph.AddEdge (Edge.mk 2 2)]).
  - by_decide.
  - reflexivity.
Defined.

Lemma add_edge_by_vertices_resolves_witness :
  Graph.add_edge_by_vertices "A" "Z" Examples.abc = (Raise ValueError, Examples.abc) ∧
  ∃ i j : nat,
    first_match ["A"; "B"; "C"] "C" i ∧ first_match ["A"; "B"; "C"] "B" j ∧
    Graph.add_edge_by_vertices "C" "B" Examples.abc =
      Graph.add_edge_by_indices (Z.of_nat i) (Z.of_nat j) Examples.abc.
Proof.
  split.
  - apply (proj1 (add_edge_by_vertices_resolves Examples.abc "A" "Z")).
    right. by_decide.
  - destruct (proj2 (add_edge_by_vertices_resolves Examples.abc "C" "B"))
      as (i & j & Hi & Hj & _ & _ & Hrun); [by_decide..|].
    by exists i, j.
Defined.

Lemma weighted_add_edge_by_indices_neighbors_witness :
  Graph.wf Examples.xy ∧
  ∃ g' nu,
    WeightedGraph.add_edge_by_indices 0 1 10 Examples.xy = (Ok (), g') ∧
    WeightedGraph.neighbors_for_index_with_weights g' 0 = Ok nu ∧
    ("Y", 10%float) ∈ nu ∧
    Graph.edges_for_index g' 1 = Ok [WeightedEdge.mk 1 0 10].
Proof.
  assert (Graph.wf Examples.xy) as Hwf by by_decide.
  split; [done|].
  destruct (weighted_add_edge_by_indices_neighbors Examples.xy 0 1 10 Hwf)
    as (g' & lv & xv & nu & Hlv & Hrun & Hxv & Hnu & Hin & _ & Hlv');
    [by vm_compute..|].
  exists g', nu. injection Hlv as <-. injection Hrun as <-.
  injection Hxv as <-. done.
Defined.

(** The two scenarios the specification gives. *)
Example scenario_abc :
  Graph.neighbors_for_vertex Examples.abc_path "B" = Ok ["A"; "C"] ∧
  Graph.edge_count Examples.abc_path = 4%Z.
Proof. by vm_compute. Qed.

Example scenario_xy :
  WeightedGraph.neighbors_for_index_with_weights Examples.xy_joined 0
    = Ok [("Y", 10%float)] ∧
  WeightedGraph.neighbors_for_index_with_weights Examples.xy_joined 1
    = Ok [("X", 10%float)].
Proof. by vm_compute. Qed.
End Concrete.

(** * Further properties *)

(** ** Looking vertices up *)

Section Lookups.
Context {V E : Type} `{EqDecision V}.
Implicit Types (g : Graph.t V E) (x y : V) (i : Z).

Lemma list_index_snoc (l : list V) x y :
  list_index (l ++ [x]) y =
    match list_index l y with
    | Some k => Some k
    | None => if decide (x = y) then Some (length l) else None
    end.
Proof.
  induction l as [|z l IH]; simpl.
  - by case_decide.
  - destruct (decide (z = y)); [done|]. rewrite IH.
    destruct (list_index l y); simpl; [done|]. by destruct (decide (x = y)).
Qed.

Lemma list_index_lt (l : list V) x k : list_index l x = Some k → k < length l.
Proof. intros [Hk _]%list_index_Some. by eapply lookup_lt_Some. Qed.

Lemma vertex_at_nonneg g i x :
  (0 ≤ i)%Z →
  Graph.vertex_at g i = Ok x ↔ Graph._vertices g !! Z.to_nat i = Some x.
Proof.
  intros Hi. unfold Graph.vertex_at. rewrite getitem_Ok. split.
  - intros (k & Hk & Hx). unfold py_index in Hk.
    repeat case_decide; simplify_eq; [done|lia].
  - intros Hx. exists (Z.to_nat i). split; [|done].
    apply py_index_nonneg. apply lookup_lt_Some in Hx. lia.
Qed.

(** [vertex_at(i)] raises, and then [IndexError], exactly when [i] is
    outside [[-n, n)].  A subscript from [-n] to [-1] reads the vertex at
    [n + i]; [vertex_at(-1)] is the vertex added last. *)
Theorem vertex_at_subscripts g i :
  (∀ e, Graph.vertex_at g i = Raise e ↔
        e = IndexError ∧ ¬ in_range (length (Graph._vertices g)) i) ∧
  (∀ x, (0 ≤ i)%Z →
        Graph.vertex_at g i = Ok x ↔ Graph._vertices g !! Z.to_nat i = Some x) ∧
  ((- Z.of_nat (length (Graph._vertices g)) ≤ i < 0)%Z →
   Graph.vertex_at g i =
     Graph.vertex_at g (Z.of_nat (length (Graph._vertices g)) + i)) ∧
  (∀ x, Graph.vertex_at g (-1) = Ok x ↔ last (Graph._vertices g) = Some x).
Proof.
  unfold Graph.vertex_at. split_and!.
  - intros e. apply getitem_Raise.
  - intros x Hi. by apply vertex_at_nonneg.
  - intros Hi. unfold getitem, py_index.
    rewrite decide_False by lia. rewrite decide_True by lia.
    rewrite decide_True by lia. do 2 f_equal.
  - intros x. rewrite getitem_Ok, last_lookup. unfold py_index. split.
    + intros (k & Hk & Hx). repeat case_decide; simplify_eq; try lia.
      rewrite <-Hx. f_equal. lia.
    + intros Hx. pose proof (lookup_lt_Some _ _ _ Hx) as Hlt.
      eexists. split; [|exact Hx].
      rewrite decide_False by lia. rewrite decide_True by lia. f_equal. lia.
Qed.

(** A value that is among the vertices is found by [index_of] at its
    first position, and [vertex_at] of that position gives it back; a
    value that is not raises [ValueError]. *)
Theorem vertex_at_index_of g x :
  (x ∈ Graph._vertices g →
   ∃ i, Graph.index_of g x = Ok i ∧
        (0 ≤ i < Graph.vertex_count g)%Z ∧
        Graph.vertex_at g i = Ok x ∧
        ∀ j, (0 ≤ j < i)%Z → Graph.vertex_at g j ≠ Ok x) ∧
  (∀ e, Graph.index_of g x = Raise e ↔ e = ValueError ∧ x ∉ Graph._vertices g).
Proof.
  split; [|intros e; apply index_Raise].
  intros Hx. destruct (index_Ok _ _ Hx) as (k & Hk & Hx' & Hfirst).
  exists (Z.of_nat k). pose proof (lookup_lt_Some _ _ _ Hx') as Hlt.
  unfold Graph.vertex_count, Graph.vertex_at. split_and!; try done; try lia.
  - apply getitem_nonneg; [lia|]. by rewrite Nat2Z.id.
  - intros j Hj Hget. apply getitem_Ok in Hget as (k' & Hk' & Hx'').
    rewrite py_index_nonneg in Hk' by lia. simplify_eq.
    apply (Hfirst (Z.to_nat j)); [lia|done].
Qed.

(** The other way round: [index_of(vertex_at(i))] is a position not
    after [i] that holds the same value, and it is [i] itself when no
    value occurs twice among the vertices. *)
Theorem index_of_vertex_at g i x :
  (0 ≤ i)%Z →
  Graph.vertex_at g i = Ok x →
  ∃ j, Graph.index_of g x = Ok j ∧ (0 ≤ j ≤ i)%Z ∧
       Graph.vertex_at g j = Ok x ∧
       (NoDup (Graph._vertices g) → j = i).
Proof.
  intros Hi Hx. apply vertex_at_nonneg in Hx; [|done].
  destruct (index_Ok (Graph._vertices g) x) as (k & Hk & Hx' & Hfirst).
  { by eapply list_elem_of_lookup_2. }
  exists (Z.of_nat k). pose proof (lookup_lt_Some _ _ _ Hx') as Hlt.
  assert (k ≤ Z.to_nat i) as Hle.
  { destruct (decide (k ≤ Z.to_nat i)) as [|Hgt]; [done|].
    destruct (Hfirst (Z.to_nat i)); [lia|done]. }
  split_and!; [done|lia|lia| |].
  - unfold Graph.vertex_at. apply getitem_nonneg; [lia|]. by rewrite Nat2Z.id.
  - intros Hnodup.
    pose proof (NoDup_lookup _ _ _ _ Hnodup Hx' Hx). lia.
Qed.

(** [add_vertex] and [index_of]: a value that was not among the
    vertices is found at the index [add_vertex] returned; a value that
    was is still found where it was first, not at the index returned;
    and no other value changes its index. *)
Theorem add_vertex_index_of g x :
  ∃ i g',
    Graph.add_vertex x g = (Ok i, g') ∧
    i = Graph.vertex_count g ∧
    (x ∉ Graph._vertices g → Graph.index_of g' x = Ok i) ∧
    (x ∈ Graph._vertices g →
     Graph.index_of g' x = Graph.index_of g x ∧ Graph.index_of g' x ≠ Ok i) ∧
    (∀ y, y ∈ Graph._vertices g → Graph.index_of g' y = Graph.index_of g y).
Proof.
  destruct (add_vertex_inv g x) as (g' & Hrun & Hvs & _).
  exists (Graph.vertex_count g), g'.
  assert (∀ y, y ∈ Graph._vertices g →
               Graph.index_of g' y = Graph.index_of g y) as Hsame.
  { intros y Hy. unfold Graph.index_of, index.
    rewrite Hvs, list_index_snoc.
    destruct (list_index (Graph._vertices g) y) eqn:Hk; [done|].
    by apply list_index_None in Hk. }
  split_and!; [done..| | |done].
  - intros Hx. unfold Graph.index_of, index, Graph.vertex_count.
    rewrite Hvs, list_index_snoc.
    apply list_index_None in Hx. by rewrite Hx, decide_True.
  - intros Hx. split; [by apply Hsame|]. rewrite Hsame by done.
    unfold Graph.index_of, index, Graph.vertex_count.
    destruct (list_index (Graph._vertices g) x) as [k|] eqn:Hk.
    + apply list_index_lt in Hk. intros [= ?]. lia.
    + done.
Qed.
End Lookups.

Section LookupsConcrete.
#[local] Open Scope string_scope.
#[local] Open Scope list_scope.

Lemma vertex_at_subscripts_witness :
  Graph.vertex_at Examples.abc (-1) = Ok "C" ∧
  Graph.vertex_at Examples.abc (-2) = Graph.vertex_at Examples.abc (3 + -2) ∧
  Graph.vertex_at Examples.abc 1 = Ok "B" ∧
  Graph.vertex_at Examples.abc 3 = Raise IndexError.
Proof.
  split_and!.
  - apply (proj2 (proj2 (proj2 (vertex_at_subscripts Examples.abc (-1))))).
    reflexivity.
  - apply (proj1 (proj2 (proj2 (vertex_at_subscripts Examples.abc (-2))))).
    simpl. lia.
  - apply (proj1 (proj2 (vertex_at_subscripts Examples.abc 1))); [lia|].
    reflexivity.
  - apply (proj1 (vertex_at_subscripts Examples.abc 3)).
    split; [done|]. unfold in_range. simpl. lia.
Defined.

Lemma vertex_at_index_of_witness :
  (∃ i, Graph.index_of Examples.abc "B" = Ok i ∧
        Graph.vertex_at Examples.abc i = Ok "B") ∧
  Graph.index_of Examples.abc "Z" = Raise ValueError.
Proof.
  split.
  - destruct (proj1 (vertex_at_index_of Examples.abc "B"))
      as (i & Hi & _ & Hx & _); [by_decide|].
    by exists i.
  - apply (proj2 (vertex_at_index_of Examples.abc "Z")).
    split; [done|]. by_decide.
Defined.

Lemma index_of_vertex_at_witness :
  ∃ j, Graph.index_of Examples.abc "C" = Ok j ∧ j = 2%Z.
Proof.
  destruct (index_of_vertex_at Examples.abc 2 "C")
    as (j & Hj & _ & _ & Hnodup); [lia|reflexivity|].
  exists j. split; [done|]. apply Hnodup. by_decide.
Defined.

Lemma add_vertex_index_of_witness :
  ∃ i g',
    Graph.add_vertex "B" Examples.abc = (Ok i, g') ∧ i = 3%Z ∧
    Graph.index_of g' "B" = Ok 1%Z.
Proof.
  destruct (add_vertex_index_of Examples.abc "B")
    as (i & g' & Hrun & Hi & _ & Hdup & _).
  exists i, g'. split_and!; [done..|].
  destruct Hdup as [-> _]; [by_decide|reflexivity].
Defined.
End LookupsConcrete.

(** ** Growth only *)

Section Growth.
Context {V E : Type} `{EqDecision V} `{EdgeLike E}.
Implicit Types (g : Graph.t V E).

Lemma grows_refl g : grows g g.
Proof. split; [done|]. intros k es Hes. eauto. Qed.

Lemma grows_trans g1 g2 g3 : grows g1 g2 → grows g2 g3 → grows g1 g3.
Proof.
  intros [Hv12 He12] [Hv23 He23]. split; [by etrans|].
  intros k es Hes. destruct (He12 _ _ Hes) as (es2 & Hes2 & Hpre2).
  destruct (He23 _ _ Hes2) as (es3 & Hes3 & Hpre3).
  exists es3. split; [done|by etrans].
Qed.

Lemma edges_append_grows g (i : Z) (e : E) r g' :
  Graph.edges_append i e g = (r, g') → grows g g'.
Proof.
  unfold Graph.edges_append. destruct (py_index _ i) as [k|].
  - intros [= _ <-]. split; [done|]. simpl. intros j es Hes.
    rewrite list_lookup_alter. case_decide; subst.
    + rewrite Hes. simpl. eexists. split; [done|]. by apply prefix_app_r.
    + eauto.
  - intros [= _ <-]. apply grows_refl.
Qed.

Lemma add_edge_grows g (e : E) r g' : Graph.add_edge e g = (r, g') → grows g g'.
Proof.
  unfold Graph.add_edge, mbind, M_bind.
  destruct (Graph.edges_append (edge_u e) e g) as [[[]|err] g1] eqn:H1.
  - intros H2. eapply grows_trans; by eapply edges_append_grows.
  - intros [= _ <-]. by eapply edges_append_grows.
Qed.

Lemma add_vertex_grows g (x : V) r g' : Graph.add_vertex x g = (r, g') → grows g g'.
Proof.
  intros [= _ <-]. split; simpl; [by apply prefix_app_r|].
  intros k es Hes. exists es. split; [|done].
  by apply lookup_app_l_Some.
Qed.

Lemma list_index_app_l (l l' : list V) (x : V) (k : nat) :
  list_index l x = Some k → list_index (l ++ l') x = Some k.
Proof.
  revert k. induction l as [|y l IH]; intros k; simpl; [done|].
  case_decide; [done|]. intros (k' & Hk' & ->)%fmap_Some.
  by rewrite (IH k').
Qed.

(** What a caller has read stays true in a grown graph. *)
Lemma grows_reads g g' :
  grows g g' →
  (∀ (i : Z) x, (0 ≤ i)%Z →
     Graph.vertex_at g i = Ok x → Graph.vertex_at g' i = Ok x) ∧
  (∀ x (i : Z), Graph.index_of g x = Ok i → Graph.index_of g' x = Ok i) ∧
  (∀ (i : Z) es, (0 ≤ i)%Z →
     Graph.edges_for_index g i = Ok es →
     ∃ es', Graph.edges_for_index g' i = Ok es' ∧ es `prefix_of` es').
Proof.
  intros [[vs Hvs] Hes]. split_and!.
  - intros i x Hi Hx. apply getitem_Ok in Hx as (k & Hk & Hx).
    unfold py_index in Hk. rewrite decide_True in Hk
      by (case_decide; [done|case_decide; [lia|done]]).
    simplify_eq. apply getitem_nonneg; [done|].
    rewrite Hvs. by apply lookup_app_l_Some.
  - intros x i. unfold Graph.index_of, index.
    destruct (list_index (Graph._vertices g) x) as [k|] eqn:Hk; [|done].
    intros [= <-]. by rewrite Hvs, (list_index_app_l _ _ _ k).
  - intros i es Hi Hget. apply getitem_Ok in Hget as (k & Hk & Hget).
    unfold py_index in Hk. rewrite decide_True in Hk
      by (case_decide; [done|case_decide; [lia|done]]).
    simplify_eq. destruct (Hes _ _ Hget) as (es' & Hes' & Hpre).
    exists es'. split; [|done]. by apply getitem_nonneg.
Qed.
End Growth.

Section GrowthOfRuns.
Context {V : Type} `{EqDecision V}.
Implicit Types (g : Graph.t V Edge.t) (cs : list (Graph.call (V:=V))).

Lemma do_call_grows g c r g' : Graph.do_call c g = (r, g') → grows g g'.
Proof.
  destruct c as [x|e|u v|a b]; simpl.
  - unfold mbind, M_bind.
    destruct (Graph.add_vertex x g) as [[i|e] g1] eqn:Hrun;
      intros [= _ <-]; by eapply add_vertex_grows.
  - apply add_edge_grows.
  - apply add_edge_grows.
  - rewrite add_edge_by_vertices_unfold.
    destruct (index _ a); [|intros [= _ <-]; apply grows_refl].
    destruct (index _ b); [|intros [= _ <-]; apply grows_refl].
    apply add_edge_grows.
Qed.

Lemma do_calls_grows g cs r g' : Graph.do_calls cs g = (r, g') → grows g g'.
Proof.
  revert g. induction cs as [|c cs IH]; intros g; simpl.
  - intros [= _ <-]. apply grows_refl.
  - unfold mbind, M_bind.
    destruct (Graph.do_call c g) as [[[]|e] g1] eqn:Hc.
    + intros Hrun. eapply grows_trans; [by eapply do_call_grows|by apply IH].
    + intros [= _ <-]. by eapply do_call_grows.
Qed.

(** Whatever calls are made and however the run ends, nothing is
    removed or rewritten: a subscript from 0 on keeps its vertex, a
    value keeps the index [index_of] gave for it, and an adjacency list
    only gets longer at its end. *)
Theorem calls_only_append g cs r g' :
  Graph.do_calls cs g = (r, g') →
  (∀ (i : Z) x, (0 ≤ i)%Z →
     Graph.vertex_at g i = Ok x → Graph.vertex_at g' i = Ok x) ∧
  (∀ x (i : Z), Graph.index_of g x = Ok i → Graph.index_of g' x = Ok i) ∧
  (∀ (i : Z) es, (0 ≤ i)%Z →
     Graph.edges_for_index g i = Ok es →
     ∃ es', Graph.edges_for_index g' i = Ok es' ∧ es `prefix_of` es').
Proof. intros Hrun. apply grows_reads. by eapply do_calls_grows. Qed.

Lemma do_call_vertex_count g c g' :
  Graph.do_call c g = (Ok (), g') →
  Graph.vertex_count g' =
    (Graph.vertex_count g + if is_add_vertex c then 1 else 0)%Z.
Proof.
  unfold Graph.vertex_count. destruct c as [x|e|u v|a b]; simpl.
  - unfold mbind, M_bind. simpl. intros [= <-]. simpl.
    rewrite length_app. simpl. lia.
  - intros (-> & _)%add_edge_inv. lia.
  - intros (-> & _)%add_edge_inv. lia.
  - rewrite add_edge_by_vertices_unfold.
    destruct (index _ a); [|done]. destruct (index _ b); [|done].
    intros (-> & _)%add_edge_inv. lia.
Qed.

(** After a run of calls that all returned, [vertex_count()] has grown
    by the number of [add_vertex] calls in it: adding edges adds no
    vertex. *)
Theorem vertex_count_after_calls g cs g' :
  Graph.do_calls cs g = (Ok (), g') →
  Graph.vertex_count g' =
    (Graph.vertex_count g +
     Z.of_nat (length (filter (λ c, is_add_vertex c = true) cs)))%Z.
Proof.
  revert g. induction cs as [|c cs IH]; intros g; simpl.
  - intros [= <-]. lia.
  - unfold mbind, M_bind.
    destruct (Graph.do_call c g) as [[[]|e] g1] eqn:Hc; [|done].
    intros Hrun. apply IH in Hrun. apply do_call_vertex_count in Hc.
    destruct (is_add_vertex c) eqn:Hadd.
    + rewrite filter_cons_True by done. simpl length. lia.
    + rewrite filter_cons_False by (by rewrite Hadd). lia.
Qed.
End GrowthOfRuns.

Section GrowthConcrete.
#[local] Open Scope string_scope.
#[local] Open Scope list_scope.

Lemma calls_only_append_witness :
  Graph.vertex_at
    (Graph.do_calls [Graph.AddVertex "D"; Graph.AddEdgeByIndices 0 9]
                    Examples.abc_path).2 1 = Ok "B" ∧
  ∃ es', Graph.edges_for_index
           (Graph.do_calls [Graph.AddVertex "D"; Graph.AddEdgeByIndices 0 9]
                           Examples.abc_path).2 0 = Ok es' ∧
         [Edge.mk 0 1] `prefix_of` es'.
Proof.
  destruct (calls_only_append Examples.abc_path
              [Graph.AddVertex "D"; Graph.AddEdgeByIndices 0 9]
              (Raise IndexError)
              (Graph.do_calls [Graph.AddVertex "D"; Graph.AddEdgeByIndices 0 9]
                              Examples.abc_path).2)
    as (Hvertex & _ & Hedges); [reflexivity|].
  split.
  - apply Hvertex; [lia|reflexivity].
  - apply Hedges; [lia|reflexivity].
Defined.

Lemma vertex_count_after_calls_witness :
  Graph.vertex_count
    (Graph.do_calls [Graph.AddVertex "D"; Graph.AddEdgeByIndices 0 3;
                     Graph.AddVertex "A"] Examples.abc).2 = 5%Z.
Proof.
  apply (vertex_count_after_calls Examples.abc
           [Graph.AddVertex "D"; Graph.AddEdgeByIndices 0 3; Graph.AddVertex "A"]).
  reflexivity.
Defined.
End GrowthConcrete.

(** ** Neighbours *)

Section RmapShape.
Context {A B : Type} (f : A → result B).

Lemma rmap_Ok_Forall2 xs ys :
  rmap f xs = Ok ys ↔ Forall2 (λ x y, f x = Ok y) xs ys.
Proof.
  revert ys. induction xs as [|x xs IH]; intros ys; simpl.
  - split; [intros [= <-]; constructor|by intros ->%Forall2_nil_inv_l].
  - split.
    + destruct (f x) as [y|] eqn:Hy; [|done]. simpl.
      destruct (rmap f xs) as [ys'|] eqn:Hys; [|done]. simpl.
      intros [= <-]. constructor; [done|]. by apply IH.
    + intros (y & ys' & Hy & Hys & ->)%Forall2_cons_inv_l.
      apply IH in Hys. by rewrite Hy, Hys.
Qed.

Lemma rmap_Raise xs e : rmap f xs = Raise e → ∃ x, x ∈ xs ∧ f x = Raise e.
Proof.
  induction xs as [|x xs IH]; simpl; [done|].
  destruct (f x) as [y|e'] eqn:Hy; simpl.
  - destruct (rmap f xs) as [ys|e'] eqn:Hys; simpl; [done|].
    intros [= <-]. destruct IH as (x' & Hx' & Hfx'); [done|].
    exists x'. split; [by right|done].
  - intros [= <-]. exists x. split; [left|done].
Qed.
End RmapShape.

Section Neighbors.
Context {V E : Type} `{EqDecision V} `{EdgeLike E}.
Implicit Types (g : Graph.t V E) (i : Z) (x : V).

Lemma wf_neighbors_in_range g i :
  Graph.wf g → in_range (length (Graph._vertices g)) i →
  ∃ xs, Graph.neighbors_for_index g i = Ok xs.
Proof.
  intros Hwf Hi. pose proof Hwf as [Hlen _]. rewrite <-Hlen in Hi.
  destruct (getitem_in_range _ _ Hi) as [es Hes].
  destruct (wf_neighbors g i es Hwf Hes) as (xs & Hxs & _). eauto.
Qed.

(** [neighbors_for_index(i)] reads the adjacency list of [i] and gives,
    in the same order and one for one, the vertex each record leads to.
    It raises nothing but [IndexError]: when [i] is no subscript of the
    adjacency lists, or when a stored record leads to no vertex.  In a
    well-formed graph it returns for every subscript the vertex list
    accepts. *)
Theorem neighbors_for_index_reads_edges g i :
  (∀ xs, Graph.neighbors_for_index g i = Ok xs ↔
         ∃ es, Graph.edges_for_index g i = Ok es ∧
               Forall2 (λ e x, Graph.vertex_at g (edge_v e) = Ok x) es xs) ∧
  (∀ err, Graph.neighbors_for_index g i = Raise err → err = IndexError) ∧
  (¬ in_range (length (Graph._edges g)) i →
   Graph.neighbors_for_index g i = Raise IndexError) ∧
  (Graph.wf g → in_range (length (Graph._vertices g)) i →
   ∃ xs, Graph.neighbors_for_index g i = Ok xs).
Proof.
  unfold Graph.neighbors_for_index, Graph.edges_for_index. split_and!.
  - intros xs. destruct (getitem (Graph._edges g) i) as [es|err]; simpl.
    + rewrite rmap_Ok_Forall2, Forall2_fmap_l. split; [eauto|].
      by intros (es' & [= <-] & Hall).
    + split; [done|]. by intros (es' & [=] & _).
  - intros err. destruct (getitem (Graph._edges g) i) as [es|err'] eqn:Hget; simpl.
    + intros (z & _ & Hz)%rmap_Raise. by apply getitem_Raise in Hz as [-> _].
    + intros [= <-]. by apply getitem_Raise in Hget as [-> _].
  - intros Hi.
    assert (getitem (Graph._edges g) i = Raise IndexError) as ->
      by by apply getitem_Raise.
    done.
  - apply wf_neighbors_in_range.
Qed.

(** [neighbors_for_vertex(x)] raises [ValueError] when [x] is not among
    the vertices, whatever the graph holds; in a well-formed graph it
    otherwise returns what [neighbors_for_index] returns for the first
    position of [x]. *)
Theorem neighbors_for_vertex_first_match g x :
  (x ∉ Graph._vertices g → Graph.neighbors_for_vertex g x = Raise ValueError) ∧
  (Graph.wf g → x ∈ Graph._vertices g →
   ∃ (k : nat) xs,
     first_match (Graph._vertices g) x k ∧
     Graph.neighbors_for_index g (Z.of_nat k) = Ok xs ∧
     Graph.neighbors_for_vertex g x = Ok xs).
Proof.
  unfold Graph.neighbors_for_vertex, Graph.index_of. split.
  - intros Hx.
    assert (index (Graph._vertices g) x = Raise ValueError) as ->
      by by apply index_Raise.
    done.
  - intros Hwf Hx. destruct (index_Ok _ _ Hx) as (k & Hk & Hfirst).
    destruct (wf_neighbors_in_range g (Z.of_nat k) Hwf) as [xs Hxs].
    { destruct Hfirst as [Hlook%lookup_lt_Some _]. unfold in_range. lia. }
    exists k, xs. rewrite Hk. done.
Qed.
End Neighbors.

Section NeighborsOfVertices.
Context {V : Type} `{EqDecision V}.
Implicit Types (g : Graph.t V Edge.t) (a b : V).

(** In a well-formed graph [add_edge_by_vertices(a, b)] with both
    values among the vertices returns and leaves a well-formed graph in
    which [b] is among [neighbors_for_vertex(a)] and [a] among
    [neighbors_for_vertex(b)]: what a search that expands vertices
    through [neighbors_for_vertex] relies on. *)
Theorem add_edge_by_vertices_neighbors g a b :
  Graph.wf g →
  a ∈ Graph._vertices g →
  b ∈ Graph._vertices g →
  ∃ g' na nb,
    Graph.add_edge_by_vertices a b g = (Ok (), g') ∧
    Graph.wf g' ∧
    Graph.neighbors_for_vertex g' a = Ok na ∧ b ∈ na ∧
    Graph.neighbors_for_vertex g' b = Ok nb ∧ a ∈ nb.
Proof.
  intros Hwf Ha Hb.
  destruct (index_Ok _ _ Ha) as (i & Hi & Hai & Hfirst_a).
  destruct (index_Ok _ _ Hb) as (j & Hj & Hbj & Hfirst_b).
  pose proof (lookup_lt_Some _ _ _ Hai) as Hilt.
  pose proof (lookup_lt_Some _ _ _ Hbj) as Hjlt.
  destruct (add_edge_in_range g (Edge.mk (Z.of_nat i) (Z.of_nat j)) Hwf
              (Edge_reversed_v _))
    as (g' & lu & lv & _ & _ & Hrun & Hvs & Hwf' & Hlu' & Hlv');
    [unfold Graph.vertex_count; simpl; lia..|].
  simpl in Hlu', Hlv'.
  destruct (wf_neighbors g' _ _ Hwf' Hlu') as (na & Hna & Hma).
  destruct (wf_neighbors g' _ _ Hwf' Hlv') as (nb & Hnb & Hmb).
  exists g', na, nb.
  unfold Graph.neighbors_for_vertex, Graph.index_of.
  rewrite add_edge_by_vertices_unfold, Hvs, Hi, Hj. simpl.
  split_and!; try done.
  - eapply rmap_Ok_elem; [exact Hma| |].
    + rewrite !fmap_app. apply elem_of_app. right. left.
    + unfold Graph.vertex_at. rewrite Hvs. simpl.
      apply getitem_nonneg; [lia|]. by rewrite Nat2Z.id.
  - eapply rmap_Ok_elem; [exact Hmb| |].
    + rewrite !fmap_app, !elem_of_app. right. right. left.
    + unfold Graph.vertex_at. rewrite Hvs. simpl.
      apply getitem_nonneg; [lia|]. by rewrite Nat2Z.id.
Qed.
End NeighborsOfVertices.

Section NeighborsConcrete.
#[local] Open Scope string_scope.
#[local] Open Scope list_scope.

Lemma neighbors_for_index_reads_edges_witness :
  Graph.neighbors_for_index Examples.abc_path 5 = Raise IndexError ∧
  (∃ xs, Graph.neighbors_for_index Examples.abc_path (-2) = Ok xs) ∧
  Graph.neighbors_for_index Examples.abc_path 1 = Ok ["A"; "C"].
Proof.
  split_and!.
  - apply (proj1 (proj2 (proj2
      (neighbors_for_index_reads_edges Examples.abc_path 5)))).
    unfold in_range. simpl. lia.
  - apply (proj2 (proj2 (proj2
      (neighbors_for_index_reads_edges Examples.abc_path (-2))))).
    + by_decide.
    + unfold in_range. simpl. lia.
  - apply (proj1 (neighbors_for_index_reads_edges Examples.abc_path 1)).
    exists [Edge.mk 1 0; Edge.mk 1 2]. split; [reflexivity|].
    repeat constructor.
Defined.

Lemma neighbors_for_vertex_first_match_witness :
  Graph.neighbors_for_vertex Examples.abc_path "Z" = Raise ValueError ∧
  ∃ xs, Graph.neighbors_for_vertex Examples.abc_path "B" = Ok xs.
Proof.
  split.
  - apply (proj1 (neighbors_for_vertex_first_match Examples.abc_path "Z")).
    by_decide.
  - destruct (proj2 (neighbors_for_vertex_first_match Examples.abc_path "B"))
      as (k & xs & _ & _ & Hxs); [by_decide..|].
    by exists xs.
Defined.

Lemma add_edge_by_vertices_neighbors_witness :
  ∃ g' na,
    Graph.add_edge_by_vertices "C" "A" Examples.abc_path = (Ok (), g') ∧
    Graph.neighbors_for_vertex g' "C" = Ok na ∧ "A" ∈ na.
Proof.
  destruct (add_edge_by_vertices_neighbors Examples.abc_path "C" "A")
    as (g' & na & nb & Hrun & _ & Hna & Hin & _); [by_decide..|].
  by exists g', na.
Defined.
End NeighborsConcrete.

(** ** Undirected connections *)

#[global] Instance Edge_laws : EdgeLaws Edge.t.
Proof. split; by intros []. Qed.

#[global] Instance WeightedEdge_laws : EdgeLaws WeightedEdge.t.
Proof. split; by intros []. Qed.

Section Undirected.
Context {V E : Type} `{EqDecision V} `{EdgeLaws E}.
Implicit Types (g : Graph.t V E) (e : E).

Lemma undirected_init (vs : list V) : undirected (Graph.init (E:=E) vs).
Proof.
  intros k es e Hes He. simpl in Hes.
  rewrite list_lookup_fmap in Hes.
  destruct (vs !! k); simplify_eq/=. by apply elem_of_nil in He.
Qed.

Lemma undirected_add_vertex g (x : V) r g' :
  undirected g → Graph.add_vertex x g = (r, g') → undirected g'.
Proof.
  intros Hund [= _ <-] k es e Hes He. simpl in *.
  apply lookup_app_Some in Hes as [Hes|[_ Hes]].
  - destruct (Hund _ _ _ Hes He) as (Hu & Hv & es' & Hes' & Hrev).
    split_and!; [done..|]. exists es'. split; [|done].
    by apply lookup_app_l_Some.
  - apply list_lookup_singleton_Some in Hes as [_ <-].
    by apply elem_of_nil in He.
Qed.

Lemma undirected_add_edge g e g' :
  undirected g →
  (0 ≤ edge_u e)%Z → (0 ≤ edge_v e)%Z →
  Graph.add_edge e g = (Ok (), g') →
  undirected g'.
Proof.
  intros Hund Hu Hv Hrun.
  destruct (py_index (Graph._edges g) (edge_u e)) as [k|] eqn:Hk.
  2:{ apply py_index_None in Hk. by rewrite add_edge_Raise_u in Hrun. }
  destruct (py_index (Graph._edges g) (edge_v e)) as [j|] eqn:Hj.
  2:{ apply py_index_None in Hj. by rewrite (add_edge_Raise_v _ _ k) in Hrun. }
  rewrite (add_edge_Ok _ _ k j) in Hrun by done. injection Hrun as <-.
  pose proof (py_index_Some_lt _ _ _ Hk) as Hklt.
  pose proof (py_index_Some_lt _ _ _ Hj) as Hjlt.
  assert (k = Z.to_nat (edge_u e)) as Hk'.
  { unfold py_index in Hk. repeat case_decide; simplify_eq; [done|lia]. }
  assert (j = Z.to_nat (edge_v e)) as Hj'.
  { unfold py_index in Hj. repeat case_decide; simplify_eq; [done|lia]. }
  destruct (lookup_lt_is_Some_2 _ _ Hklt) as [lk Hlk].
  destruct (lookup_lt_is_Some_2 _ _ Hjlt) as [lj Hlj].
  (* what was stored stays stored *)
  assert (∀ p l x, Graph._edges g !! p = Some l → x ∈ l →
            ∃ l', alter (λ l, l ++ [edge_reversed e]) j
                    (alter (λ l, l ++ [e]) k (Graph._edges g)) !! p = Some l'
                  ∧ x ∈ l') as Hkeep.
  { intros p l x Hl Hx. rewrite lookup_after_add_edge, Hl. simpl.
    eexists. split; [done|]. apply elem_of_app. by left. }
  intros p es e0. simpl. rewrite lookup_after_add_edge.
  intros (l & Hl & ->)%fmap_Some. rewrite !elem_of_app.
  intros [He0|[He0|He0]].
  - destruct (Hund _ _ _ Hl He0) as (Hu0 & Hv0 & es' & Hes' & Hrev).
    split_and!; [done..|]. by eapply Hkeep.
  - case_decide; [subst p|by apply elem_of_nil in He0].
    apply list_elem_of_singleton in He0 as ->.
    split_and!; [lia|done|].
    rewrite <-Hj', lookup_after_add_edge, Hlj. simpl.
    eexists. split; [done|]. rewrite (decide_True (P:=j = j)) by done.
    rewrite !elem_of_app. right. right. left.
  - case_decide; [subst p|by apply elem_of_nil in He0].
    apply list_elem_of_singleton in He0 as ->.
    rewrite reversed_u, reversed_v, reversed_reversed.
    split_and!; [lia|done|].
    rewrite <-Hk', lookup_after_add_edge, Hlk. simpl.
    eexists. split; [done|]. rewrite decide_True by done.
    rewrite !elem_of_app. right. left. left.
Qed.

(** In an undirected graph the record from [i] to [j] and the record
    from [j] to [i] are stored together or not at all. *)
Lemma undirected_symmetric g (i j : Z) e es_i es_j :
  undirected g →
  (0 ≤ i)%Z → (0 ≤ j)%Z →
  edge_u e = i → edge_v e = j →
  Graph.edges_for_index g i = Ok es_i →
  Graph.edges_for_index g j = Ok es_j →
  e ∈ es_i ↔ edge_reversed e ∈ es_j.
Proof.
  intros Hund Hi Hj Hu Hv Hes_i Hes_j.
  apply getitem_Ok in Hes_i as (ki & Hki & Hes_i).
  apply getitem_Ok in Hes_j as (kj & Hkj & Hes_j).
  assert (ki = Z.to_nat i) as ->.
  { unfold py_index in Hki. repeat case_decide; simplify_eq; [done|lia]. }
  assert (kj = Z.to_nat j) as ->.
  { unfold py_index in Hkj. repeat case_decide; simplify_eq; [done|lia]. }
  split.
  - intros He. destruct (Hund _ _ _ Hes_i He) as (_ & _ & es' & Hes' & Hrev).
    rewrite Hv in Hes'. by simplify_eq.
  - intros He. destruct (Hund _ _ _ Hes_j He) as (_ & _ & es' & Hes' & Hrev).
    rewrite reversed_v, Hu in Hes'. rewrite reversed_reversed in Hrev.
    by simplify_eq.
Qed.
End Undirected.

Section UndirectedRuns.
Context {V : Type} `{EqDecision V}.
Implicit Types (g : Graph.t V Edge.t) (cs : list (Graph.call (V:=V))).

Lemma index_nonneg (l : list V) (x : V) (i : Z) : index l x = Ok i → (0 ≤ i)%Z.
Proof. unfold index. destruct (list_index l x); intros [= <-]. lia. Qed.

Lemma do_call_undirected g c g' :
  undirected g → nonneg_call c →
  Graph.do_call c g = (Ok (), g') → undirected g'.
Proof.
  intros Hund Hc. destruct c as [x|e|u v|a b]; simpl in *.
  - unfold mbind, M_bind.
    destruct (Graph.add_vertex x g) as [[i|e] g1] eqn:Hrun; [|done].
    intros [= <-]. by eapply undirected_add_vertex.
  - destruct Hc. by apply undirected_add_edge.
  - destruct Hc. by apply undirected_add_edge.
  - rewrite add_edge_by_vertices_unfold.
    destruct (index _ a) as [i|] eqn:Hi; [|done].
    destruct (index _ b) as [j|] eqn:Hj; [|done].
    apply undirected_add_edge; [done|by eapply index_nonneg..].
Qed.

Lemma do_calls_undirected g cs g' :
  undirected g → Forall nonneg_call cs →
  Graph.do_calls cs g = (Ok (), g') → undirected g'.
Proof.
  intros Hund Hcs. revert g Hund.
  induction Hcs as [|c cs Hc _ IH]; intros g Hund; simpl.
  - by intros [= <-].
  - unfold mbind, M_bind.
    destruct (Graph.do_call c g) as [[[]|e] g1] eqn:Hrun; [|done].
    apply IH. by eapply do_call_undirected.
Qed.

(** A graph made by the constructor and then changed by calls that all
    returned and took no negative subscript is undirected: [Edge(i, j)]
    is in the adjacency list of [i] exactly when [Edge(j, i)] is in that
    of [j]. *)
Theorem returned_calls_keep_edges_paired (vertices : list V) cs g' :
  Forall nonneg_call cs →
  Graph.do_calls cs (Graph.init vertices) = (Ok (), g') →
  ∀ (i j : Z) es_i es_j,
    (0 ≤ i)%Z → (0 ≤ j)%Z →
    Graph.edges_for_index g' i = Ok es_i →
    Graph.edges_for_index g' j = Ok es_j →
    Edge.mk i j ∈ es_i ↔ Edge.mk j i ∈ es_j.
Proof.
  intros Hcs Hrun i j es_i es_j Hi Hj Hes_i Hes_j.
  change (Edge.mk j i) with (edge_reversed (Edge.mk i j)).
  apply (undirected_symmetric g' i j (Edge.mk i j)); try done.
  eapply do_calls_undirected; [apply undirected_init|done..].
Qed.
End UndirectedRuns.

Section WeightedUndirectedRuns.
Context {V : Type} `{EqDecision V}.
Implicit Types (g : WeightedGraph.t V) (cs : list (WeightedCalls.call (V:=V))).

Lemma weighted_add_edge_by_vertices_unfold g (first second : V) (w : float) :
  WeightedGraph.add_edge_by_vertices first second w g =
    match Graph.index_of g first with
    | Raise e => (Raise e, g)
    | Ok i =>
        match Graph.index_of g second with
        | Raise e => (Raise e, g)
        | Ok j => WeightedGraph.add_edge_by_indices i j w g
        end
    end.
Proof.
  unfold WeightedGraph.add_edge_by_vertices, mbind, M_bind, read.
  destruct (Graph.index_of g first); [|done].
  by destruct (Graph.index_of g second).
Qed.

Lemma do_weighted_call_undirected g c g' :
  undirected g → WeightedCalls.nonneg_call c →
  WeightedCalls.do_call c g = (Ok (), g') → undirected g'.
Proof.
  intros Hund Hc. destruct c as [x|e|u v w|a b w]; simpl in *.
  - unfold mbind, M_bind.
    destruct (Graph.add_vertex x g) as [[i|e] g1] eqn:Hrun; [|done].
    intros [= <-]. by eapply undirected_add_vertex.
  - destruct Hc. by apply undirected_add_edge.
  - destruct Hc. by apply undirected_add_edge.
  - rewrite weighted_add_edge_by_vertices_unfold. unfold Graph.index_of.
    destruct (index _ a) as [i|] eqn:Hi; [|done].
    destruct (index _ b) as [j|] eqn:Hj; [|done].
    apply undirected_add_edge; [done|by eapply index_nonneg..].
Qed.

Lemma do_weighted_calls_undirected g cs g' :
  undirected g → Forall WeightedCalls.nonneg_call cs →
  WeightedCalls.do_calls cs g = (Ok (), g') → undirected g'.
Proof.
  intros Hund Hcs. revert g Hund.
  induction Hcs as [|c cs Hc _ IH]; intros g Hund; simpl.
  - by intros [= <-].
  - unfold mbind, M_bind.
    destruct (WeightedCalls.do_call c g) as [[[]|e] g1] eqn:Hrun; [|done].
    apply IH. by eapply do_weighted_call_undirected.
Qed.

(** The same for a weighted graph, with the weight: after calls that
    all returned and took no negative subscript, [WeightedEdge(i, j, w)]
    is in the adjacency list of [i] exactly when [WeightedEdge(j, i, w)]
    is in that of [j]. *)
Theorem returned_calls_keep_weights_paired (vertices : list V) cs g' :
  Forall WeightedCalls.nonneg_call cs →
  WeightedCalls.do_calls cs (WeightedGraph.init vertices) = (Ok (), g') →
  ∀ (i j : Z) (w : float) es_i es_j,
    (0 ≤ i)%Z → (0 ≤ j)%Z →
    Graph.edges_for_index g' i = Ok es_i →
    Graph.edges_for_index g' j = Ok es_j →
    WeightedEdge.mk i j w ∈ es_i ↔ WeightedEdge.mk j i w ∈ es_j.
Proof.
  intros Hcs Hrun i j w es_i es_j Hi Hj Hes_i Hes_j.
  change (WeightedEdge.mk j i w) with (edge_reversed (WeightedEdge.mk i j w)).
  apply (undirected_symmetric g' i j (WeightedEdge.mk i j w)); try done.
  eapply do_weighted_calls_undirected; [apply undirected_init|done..].
Qed.
End WeightedUndirectedRuns.

Section UndirectedConcrete.
#[local] Open Scope string_scope.
#[local] Open Scope list_scope.

Lemma returned_calls_keep_edges_paired_witness :
  Edge.mk 1 2 ∈ [Edge.mk 1 0; Edge.mk 1 2] ↔ Edge.mk 2 1 ∈ [Edge.mk 2 1].
Proof.
  apply (returned_calls_keep_edges_paired ["A"; "B"; "C"]
           [Graph.AddEdgeByVertices "A" "B"; Graph.AddEdgeByIndices 1 2]
           Examples.abc_path).
  - repeat first [apply Forall_nil_2
                 |apply Forall_cons_2; [simpl; first [exact I|lia]|]].
  - reflexivity.
  - lia.
  - lia.
  - reflexivity.
  - reflexivity.
Defined.

Lemma returned_calls_keep_weights_paired_witness :
  WeightedEdge.mk 0 1 10 ∈ [WeightedEdge.mk 0 1 10] ↔
  WeightedEdge.mk 1 0 10 ∈ [WeightedEdge.mk 1 0 10].
Proof.
  apply (returned_calls_keep_weights_paired ["X"; "Y"]
           [WeightedCalls.AddEdgeByVertices "X" "Y" 10]
           Examples.xy_joined).
  - repeat first [apply Forall_nil_2
                 |apply Forall_cons_2; [simpl; first [exact I|lia]|]].
  - reflexivity.
  - lia.
  - lia.
  - reflexivity.
  - reflexivity.
Defined.
End UndirectedConcrete.

(** ** Weighted neighbours *)

Section WeightedNeighbors.
Context {V : Type} `{EqDecision V}.
Implicit Types (g : WeightedGraph.t V) (i : Z) (w : float).

Lemma rmap_pairs_fst {A B C} (f : A → result B) (h : A → C) (xs : list A) :
  (ps ← rmap (λ a, x ← f a; Ok (x, h a)) xs; Ok (ps.*1)) = rmap f xs.
Proof.
  induction xs as [|a xs IH]; simpl; [done|].
  destruct (f a) as [x|e]; simpl; [|done]. rewrite <-IH.
  by destruct (rmap (λ a, x ← f a; Ok (x, h a)) xs).
Qed.

Lemma rmap_pairs_snd {A B C} (f : A → result B) (h : A → C) (xs : list A) ps :
  rmap (λ a, x ← f a; Ok (x, h a)) xs = Ok ps → ps.*2 = h <$> xs.
Proof.
  revert ps. induction xs as [|a xs IH]; intros ps; simpl.
  - by intros [= <-].
  - destruct (f a) as [x|e]; simpl; [|done].
    destruct (rmap (λ a, x ← f a; Ok (x, h a)) xs) as [ps'|]; simpl; [|done].
    intros [= <-]. simpl. f_equal. by apply IH.
Qed.

Lemma rmap_fmap {A B C} (f : B → result C) (h : A → B) (xs : list A) :
  rmap f (h <$> xs) = rmap (λ a, f (h a)) xs.
Proof.
  induction xs as [|a xs IH]; [done|].
  rewrite fmap_cons. simpl. by rewrite IH.
Qed.

(** [neighbors_for_index_with_weights] and the inherited
    [neighbors_for_index] agree: both return or both raise the same
    error, and the pairs of the first carry, in order, the neighbours
    the second returns and the weights of the stored records. *)
Theorem neighbors_with_weights_agree g i :
  Graph.neighbors_for_index g i =
    (ps ← WeightedGraph.neighbors_for_index_with_weights g i; Ok (ps.*1)) ∧
  ∀ ps, WeightedGraph.neighbors_for_index_with_weights g i = Ok ps →
        ∃ es, Graph.edges_for_index g i = Ok es ∧
              ps.*2 = WeightedEdge.weight <$> es.
Proof.
  unfold Graph.neighbors_for_index,
    WeightedGraph.neighbors_for_index_with_weights, Graph.edges_for_index.
  destruct (getitem (Graph._edges g) i) as [es|e]; simpl; [|done].
  split.
  - by rewrite rmap_pairs_fst, rmap_fmap.
  - intros ps Hps. exists es. split; [done|].
    exact (rmap_pairs_snd _ _ _ _ Hps).
Qed.

(** [add_edge_by_vertices(first, second, weight)] on a weighted graph:
    a value that is not among the vertices makes it raise [ValueError]
    with the graph as before; in a well-formed graph with both values
    present it returns, and each value is then listed with the weight
    among the weighted neighbours of the other's first position. *)
Theorem weighted_add_edge_by_vertices_neighbors g (a b : V) w :
  (a ∉ Graph._vertices g ∨ b ∉ Graph._vertices g →
   WeightedGraph.add_edge_by_vertices a b w g = (Raise ValueError, g)) ∧
  (Graph.wf g → a ∈ Graph._vertices g → b ∈ Graph._vertices g →
   ∃ g' (i j : nat) pa pb,
     first_match (Graph._vertices g) a i ∧
     first_match (Graph._vertices g) b j ∧
     WeightedGraph.add_edge_by_vertices a b w g = (Ok (), g') ∧
     Graph.wf g' ∧
     WeightedGraph.neighbors_for_index_with_weights g' (Z.of_nat i) = Ok pa ∧
     (b, w) ∈ pa ∧
     WeightedGraph.neighbors_for_index_with_weights g' (Z.of_nat j) = Ok pb ∧
     (a, w) ∈ pb).
Proof.
  rewrite weighted_add_edge_by_vertices_unfold. unfold Graph.index_of. split.
  - intros Hnot.
    destruct (index (Graph._vertices g) a) as [i|e] eqn:Hi.
    + destruct Hnot as [Ha|Hb].
      * assert (index (Graph._vertices g) a = Raise ValueError) as Hr
          by by apply index_Raise.
        congruence.
      * assert (index (Graph._vertices g) b = Raise ValueError) as ->
          by by apply index_Raise.
        done.
    + apply index_Raise in Hi as [-> _]. done.
  - intros Hwf Ha Hb.
    destruct (index_Ok _ _ Ha) as (i & Hi & Hfirst_a).
    destruct (index_Ok _ _ Hb) as (j & Hj & Hfirst_b).
    pose proof Hfirst_a as [Hai _]. pose proof Hfirst_b as [Hbj _].
    pose proof (lookup_lt_Some _ _ _ Hai) as Hilt.
    pose proof (lookup_lt_Some _ _ _ Hbj) as Hjlt.
    destruct (add_edge_in_range g
                (WeightedEdge.mk (Z.of_nat i) (Z.of_nat j) w) Hwf
                (WeightedEdge_reversed_v _))
      as (g' & lu & lv & _ & _ & Hrun & Hvs & Hwf' & Hlu' & Hlv');
      [unfold Graph.vertex_count; simpl; lia..|].
    simpl in Hlu', Hlv'.
    destruct (wf_neighbors_with_weights g' _ _ Hwf' Hlu') as (pa & Hpa & Hma).
    destruct (wf_neighbors_with_weights g' _ _ Hwf' Hlv') as (pb & Hpb & Hmb).
    exists g', i, j, pa, pb. rewrite Hi, Hj.
    split_and!; try done.
    + eapply (rmap_Ok_elem _ _ _ (WeightedEdge.mk (Z.of_nat i) (Z.of_nat j) w));
        [exact Hma| |].
      * apply elem_of_app. right. left.
      * simpl. unfold Graph.vertex_at. rewrite Hvs.
        rewrite (getitem_nonneg _ _ b); [done|lia|by rewrite Nat2Z.id].
    + eapply (rmap_Ok_elem _ _ _ (WeightedEdge.mk (Z.of_nat j) (Z.of_nat i) w));
        [exact Hmb| |].
      * rewrite !elem_of_app. right. right. left.
      * simpl. unfold Graph.vertex_at. rewrite Hvs.
        rewrite (getitem_nonneg _ _ a); [done|lia|by rewrite Nat2Z.id].
Qed.
End WeightedNeighbors.

Section WeightedNeighborsConcrete.
#[local] Open Scope string_scope.
#[local] Open Scope list_scope.

Lemma neighbors_with_weights_agree_witness :
  ∃ es, Graph.edges_for_index Examples.xy_joined 1 = Ok es ∧
        [("X", 10%float)].*2 = WeightedEdge.weight <$> es.
Proof.
  apply (proj2 (neighbors_with_weights_agree Examples.xy_joined 1)).
  reflexivity.
Defined.

Lemma weighted_add_edge_by_vertices_neighbors_witness :
  WeightedGraph.add_edge_by_vertices "X" "Z" 3 Examples.xy
    = (Raise ValueError, Examples.xy) ∧
  ∃ g' pa,
    WeightedGraph.add_edge_by_vertices "Y" "X" 3 Examples.xy = (Ok (), g') ∧
    WeightedGraph.neighbors_for_index_with_weights g' 1 = Ok pa ∧
    ("X", 3%float) ∈ pa.
Proof.
  split.
  - apply (proj1 (weighted_add_edge_by_vertices_neighbors Examples.xy "X" "Z" 3)).
    right. by_decide.
  - destruct (proj2 (weighted_add_edge_by_vertices_neighbors Examples.xy "Y" "X" 3))
      as (g' & i & j & pa & pb & Hi & _ & Hrun & _ & Hpa & Hin & _);
      [by_decide..|].
    exists g', pa. split_and!; [done| |done].
    apply list_index_Some in Hi. injection Hi as <-. exact Hpa.
Defined.
End WeightedNeighborsConcrete.

(** ** Graphs that hold the same list *)

Section Sharing.
Context {V E : Type} `{EqDecision V} `{EdgeLike E}.
Implicit Types (h : Heap.t V E) (g : Heap.loc) (o : Heap.graph_obj E).

(** When two graphs hold the same list, [add_vertex] on one is seen by
    the other as a vertex, without an adjacency list for it: if the
    other had one list per vertex, its new vertex can be read with
    [vertex_at] while [neighbors_for_index] and [edges_for_index] raise
    [IndexError] at the same subscript. *)
Theorem add_vertex_seen_by_sharing_graph h g g2 o o2 vs (x : V) :
  Heap.graphs h !! g = Some o →
  Heap.graphs h !! g2 = Some o2 →
  g2 ≠ g →
  Heap.vertices_ref o2 = Heap.vertices_ref o →
  Heap.lists h !! Heap.vertices_ref o = Some vs →
  length (Heap.edges_obj o2) = length vs →
  ∃ h' self2,
    Heap.call g (Graph.add_vertex x) h = Some (Ok (Z.of_nat (length vs)), h') ∧
    Heap.view h' g = Some (Graph.mk (vs ++ [x]) (Heap.edges_obj o ++ [[]])) ∧
    Heap.view h' g2 = Some self2 ∧
    self2 = Graph.mk (vs ++ [x]) (Heap.edges_obj o2) ∧
    Graph.vertex_at self2 (Z.of_nat (length vs)) = Ok x ∧
    Graph.edges_for_index self2 (Z.of_nat (length vs)) = Raise IndexError ∧
    Graph.neighbors_for_index self2 (Z.of_nat (length vs)) = Raise IndexError.
Proof.
  intros Ho Ho2 Hne Href Hvs Hlen.
  unfold Heap.call. rewrite Ho. simpl. rewrite Hvs. simpl.
  eexists _, _. split_and!.
  - do 3 f_equal. unfold Graph.vertex_count. simpl.
    rewrite length_app. simpl. lia.
  - unfold Heap.view. simpl. rewrite lookup_insert_eq. simpl.
    by rewrite lookup_insert_eq.
  - unfold Heap.view. simpl. rewrite lookup_insert_ne by done.
    rewrite Ho2. simpl. rewrite Href, lookup_insert_eq. done.
  - done.
  - unfold Graph.vertex_at. simpl. apply getitem_nonneg; [lia|].
    rewrite Nat2Z.id. by apply list_lookup_middle.
  - unfold Graph.edges_for_index. simpl. apply getitem_Raise.
    split; [done|]. unfold in_range. lia.
  - unfold Graph.neighbors_for_index. simpl.
    assert (getitem (Heap.edges_obj o2) (Z.of_nat (length vs)) = Raise IndexError)
      as -> by (apply getitem_Raise; split; [done|unfold in_range; lia]).
    done.
Qed.
End Sharing.

Section SharingConcrete.
#[local] Open Scope string_scope.
#[local] Open Scope list_scope.

Lemma add_vertex_seen_by_sharing_graph_witness :
  ∃ h' self2,
    Heap.call 0 (Graph.add_vertex "B") HeapExamples.shared = Some (Ok 1%Z, h') ∧
    Heap.view h' 1 = Some self2 ∧
    Graph.vertex_at self2 1 = Ok "B" ∧
    Graph.neighbors_for_index self2 1 = Raise IndexError.
Proof.
  destruct (add_vertex_seen_by_sharing_graph HeapExamples.shared 0 1
              (Heap.mk_graph 0 [[]]) (Heap.mk_graph 0 [[]]) ["A"] "B")
    as (h' & self2 & Hcall & _ & Hview & _ & Hat & _ & Hnb);
    [reflexivity|reflexivity|lia|reflexivity|reflexivity|reflexivity|].
  by exists h', self2.
Defined.
End SharingConcrete.

(** ** Rendering a graph *)

Lemma string_app_assoc (s1 s2 s3 : string) : (s1 +:+ s2) +:+ s3 = s1 +:+ (s2 +:+ s3).
Proof.
  induction s1 as [|c s1 IH]; [done|].
  change (String c ((s1 +:+ s2) +:+ s3) = String c (s1 +:+ (s2 +:+ s3))).
  by f_equal.
Qed.

Lemma string_app_nil_r (s : string) : s +:+ "" = s.
Proof.
  induction s as [|c s IH]; [done|].
  change (String c (s +:+ "") = String c s). by f_equal.
Qed.

Lemma range_Forall (n : Z) :
  Forall (λ i, (0 ≤ i < n)%Z) (GraphStr.range n).
Proof.
  unfold GraphStr.range. apply Forall_fmap, Forall_forall.
  intros k Hk%elem_of_seq. simpl. lia.
Qed.

Lemma range_elem (n i : Z) : (0 ≤ i < n)%Z → i ∈ GraphStr.range n.
Proof.
  intros Hi. unfold GraphStr.range. apply list_elem_of_fmap.
  exists (Z.to_nat i). split; [lia|]. apply elem_of_seq. lia.
Qed.

Lemma range_length (n : Z) : length (GraphStr.range n) = Z.to_nat n.
Proof. unfold GraphStr.range. by rewrite length_fmap, length_seq. Qed.

Lemma rmap_length {A B} (f : A → result B) xs ys :
  rmap f xs = Ok ys → length ys = length xs.
Proof. intros Hall%rmap_Ok_Forall2. symmetry. by eapply Forall2_length. Qed.

Lemma rmap_Ok_Forall {A B} (f : A → result B) (P : B → Prop) xs ys :
  rmap f xs = Ok ys → (∀ x y, f x = Ok y → P y) → Forall P ys.
Proof.
  intros Hall%rmap_Ok_Forall2 HP.
  induction Hall; constructor; eauto.
Qed.

Section GraphStrFacts.
Context {V E : Type} `{EqDecision V} `{EdgeLike E}.
Context (format_vertex : V → string) (format_neighbors : list V → string).
Implicit Types (self : Graph.t V E).

Lemma str_from_cons self (i : Z) (indices : list Z) (desc : string) :
  GraphStr.str_from format_vertex format_neighbors self (i :: indices) desc =
    (l ← GraphStr.line format_vertex format_neighbors self i;
     GraphStr.str_from format_vertex format_neighbors self indices (desc +:+ l)).
Proof.
  unfold GraphStr.line. simpl.
  destruct (Graph.vertex_at self i) as [x|]; simpl; [|done].
  by destruct (Graph.neighbors_for_index self i).
Qed.

(** The loop adds the lines one after the other and stops at the first
    that cannot be made. *)
Lemma str_from_lines self (indices : list Z) (desc : string) :
  GraphStr.str_from format_vertex format_neighbors self indices desc =
    (lines ← rmap (GraphStr.line format_vertex format_neighbors self) indices;
     Ok (desc +:+ foldr String.app "" lines)).
Proof.
  revert desc. induction indices as [|i indices IH]; intros desc.
  - simpl. by rewrite string_app_nil_r.
  - rewrite str_from_cons. simpl.
    destruct (GraphStr.line format_vertex format_neighbors self i) as [l|];
      simpl; [|done].
    rewrite IH.
    destruct (rmap (GraphStr.line format_vertex format_neighbors self) indices);
      simpl; [|done].
    by rewrite string_app_assoc.
Qed.

Lemma line_Ok self (i : Z) :
  (0 ≤ i < Graph.vertex_count self)%Z →
  (∃ l, GraphStr.line format_vertex format_neighbors self i = Ok l) ↔ ∃ ns, Graph.neighbors_for_index self i = Ok ns.
Proof.
  intros Hi. unfold GraphStr.line.
  destruct (vertex_at_in_range self i) as [x ->].
  { unfold Graph.vertex_count, in_range in *. lia. }
  simpl. destruct (Graph.neighbors_for_index self i); simpl.
  - split; eauto.
  - split; by intros [? ?].
Qed.

Lemma line_Raise self (i : Z) err : GraphStr.line format_vertex format_neighbors self i = Raise err → err = IndexError.
Proof.
  unfold GraphStr.line.
  destruct (Graph.vertex_at self i) as [x|e] eqn:Hx; simpl.
  - destruct (Graph.neighbors_for_index self i) as [ns|e] eqn:Hns; simpl; [done|].
    intros [= <-]. unfold Graph.neighbors_for_index in Hns.
    destruct (getitem (Graph._edges self) i) as [es|e'] eqn:Hes; simpl in Hns.
    + apply rmap_Raise in Hns as (z & _ & Hz).
      by apply getitem_Raise in Hz as [-> _].
    + injection Hns as <-. by apply getitem_Raise in Hes as [-> _].
  - intros [= <-]. by apply getitem_Raise in Hx as [-> _].
Qed.

Lemma str_Ok_neighbors self s (i : Z) :
  GraphStr.__str__ format_vertex format_neighbors self = Ok s →
  (0 ≤ i < Graph.vertex_count self)%Z →
  ∃ ns, Graph.neighbors_for_index self i = Ok ns.
Proof.
  unfold GraphStr.__str__. rewrite str_from_lines. intros Hs Hi.
  destruct (rmap (GraphStr.line format_vertex format_neighbors self) _)
    as [lines|] eqn:Hlines; [|done].
  apply rmap_Ok_Forall2 in Hlines.
  destruct (Forall2_lookup_l _ _ _ (Z.to_nat i) i Hlines) as (l & _ & Hl).
  { unfold GraphStr.range. rewrite list_lookup_fmap, lookup_seq_lt; [|lia].
    simpl. f_equal. lia. }
  apply line_Ok; eauto.
Qed.

Lemma str_Raise self err :
  GraphStr.__str__ format_vertex format_neighbors self = Raise err →
  err = IndexError.
Proof.
  unfold GraphStr.__str__. rewrite str_from_lines.
  destruct (rmap (GraphStr.line format_vertex format_neighbors self) _)
    as [lines|e] eqn:Hlines; [done|].
  simpl. intros [= <-]. apply rmap_Raise in Hlines as (i & _ & Hi).
  by eapply line_Raise.
Qed.

Lemma neighbors_Ok_str_lines self :
  (∀ i : Z, (0 ≤ i < Graph.vertex_count self)%Z →
            ∃ ns, Graph.neighbors_for_index self i = Ok ns) →
  ∃ lines,
    rmap (GraphStr.line format_vertex format_neighbors self)
         (GraphStr.range (Graph.vertex_count self)) = Ok lines ∧
    GraphStr.__str__ format_vertex format_neighbors self
      = Ok (foldr String.app "" lines).
Proof.
  intros Hns.
  destruct (rmap_Forall_Ok (GraphStr.line format_vertex format_neighbors self)
              (GraphStr.range (Graph.vertex_count self))) as [lines Hlines].
  { eapply Forall_impl; [apply range_Forall|]. intros i Hi. simpl in Hi.
    apply line_Ok; auto. }
  exists lines. split; [done|].
  unfold GraphStr.__str__. by rewrite str_from_lines, Hlines.
Qed.

(** [__str__] returns exactly when [neighbors_for_index] returns for
    every subscript from 0 to [vertex_count() - 1], and raises nothing
    but [IndexError].  On a well-formed graph it returns, one line per
    vertex, each ended by a newline. *)
Theorem str_returns_when_neighbors_do self :
  ((∃ s, GraphStr.__str__ format_vertex format_neighbors self = Ok s) ↔
   ∀ i : Z, (0 ≤ i < Graph.vertex_count self)%Z →
            ∃ ns, Graph.neighbors_for_index self i = Ok ns) ∧
  (∀ err, GraphStr.__str__ format_vertex format_neighbors self = Raise err →
          err = IndexError) ∧
  (Graph.wf self →
   ∃ lines,
     GraphStr.__str__ format_vertex format_neighbors self
       = Ok (foldr String.app "" lines) ∧
     length lines = length (Graph._vertices self) ∧
     Forall (λ l, ∃ l', l = l' +:+ newline) lines).
Proof.
  split_and!.
  - split.
    + intros [s Hs] i Hi. by eapply str_Ok_neighbors.
    + intros Hns. destruct (neighbors_Ok_str_lines self Hns) as (lines & _ & ->).
      eauto.
  - apply str_Raise.
  - intros Hwf. destruct (neighbors_Ok_str_lines self) as (lines & Hlines & Hstr).
    { intros i Hi. apply wf_neighbors_in_range; [done|].
      unfold Graph.vertex_count, in_range in *. lia. }
    exists lines. split_and!; [done| |].
    + rewrite (rmap_length _ _ _ Hlines), range_length.
      unfold Graph.vertex_count. lia.
    + eapply rmap_Ok_Forall; [exact Hlines|].
      intros i l. unfold GraphStr.line.
      destruct (Graph.vertex_at self i) as [x|]; simpl; [|done].
      destruct (Graph.neighbors_for_index self i) as [ns|]; simpl; [|done].
      intros [= <-]. rewrite <-!string_app_assoc. eauto.
Qed.
End GraphStrFacts.

Section Poisoned.
Context {V : Type} `{EqDecision V}.
Context (format_vertex : V → string) (format_neighbors : list V → string).
Implicit Types (g : Graph.t V Edge.t) (u v : Z).

(** What the record of a failed call does: after
    [add_edge_by_indices(u, v)] has raised for [v] on a well-formed
    graph, with [u] in range, the graph is no longer well-formed, and
    both [neighbors_for_index(u)] and [__str__] raise [IndexError]. *)
Theorem failed_add_edge_breaks_reads g u v :
  Graph.wf g →
  (0 ≤ u < Graph.vertex_count g)%Z →
  ¬ in_range (length (Graph._vertices g)) v →
  ∃ g',
    Graph.add_edge_by_indices u v g = (Raise IndexError, g') ∧
    ¬ Graph.wf g' ∧
    Graph.neighbors_for_index g' u = Raise IndexError ∧
    GraphStr.__str__ format_vertex format_neighbors g' = Raise IndexError.
Proof.
  intros Hwf Hu Hv. pose proof Hwf as [Hlen Hall].
  unfold Graph.vertex_count in Hu. rewrite <-Hlen in Hu.
  pose proof (py_index_nonneg _ _ Hu) as Hk.
  destruct (lookup_lt_is_Some_2 (Graph._edges g) (Z.to_nat u)) as [lu Hlu]; [lia|].
  eexists. split.
  { apply (add_edge_Raise_v g (Edge.mk u v) (Z.to_nat u)); [exact Hk|].
    simpl. by rewrite Hlen. }
  assert (Graph.neighbors_for_index
            (Graph.mk (Graph._vertices g)
               (alter (λ l, l ++ [Edge.mk u v]) (Z.to_nat u) (Graph._edges g))) u
          = Raise IndexError) as Hnb.
  { unfold Graph.neighbors_for_index. simpl.
    rewrite (getitem_nonneg _ _ (lu ++ [Edge.mk u v])); [|lia|].
    2:{ by rewrite list_lookup_alter_eq, Hlu. }
    simpl. rewrite fmap_app, rmap_app.
    destruct (rmap_Forall_Ok (Graph.vertex_at g) (edge_v <$> lu)) as [nu Hnu].
    { apply Forall_fmap.
      eapply Forall_impl; [exact (Forall_lookup_1 _ _ _ _ Hall Hlu)|].
      intros e He. simpl in *. by apply vertex_at_in_range. }
    unfold Graph.vertex_at in *. simpl in *. rewrite Hnu. simpl.
    assert (getitem (Graph._vertices g) v = Raise IndexError) as ->
      by by apply getitem_Raise.
    done. }
  split_and!; [|done|].
  - intros Hwf'.
    destruct (wf_neighbors_in_range _ u Hwf') as [xs Hxs]; [|congruence].
    simpl. unfold in_range. lia.
  - match goal with |- ?r = _ => destruct r as [s|err] eqn:Hstr end.
    + destruct (str_Ok_neighbors _ _ _ _ u Hstr) as [ns Hns]; [|congruence].
      unfold Graph.vertex_count. simpl. lia.
    + by apply str_Raise in Hstr as ->.
Qed.
End Poisoned.

Section WeightedGraphStrFacts.
Context {V : Type} `{EqDecision V}.
Context (format_vertex : V → string)
        (format_neighbors : list (V * float) → string).
Implicit Types (self : WeightedGraph.t V).

Lemma weighted_str_from_cons self (i : Z) (indices : list Z) (desc : string) :
  WeightedGraphStr.str_from format_vertex format_neighbors self (i :: indices) desc =
    (l ← WeightedGraphStr.line format_vertex format_neighbors self i;
     WeightedGraphStr.str_from format_vertex format_neighbors self indices
       (desc +:+ l)).
Proof.
  unfold WeightedGraphStr.line. simpl.
  destruct (Graph.vertex_at self i) as [x|]; simpl; [|done].
  by destruct (WeightedGraph.neighbors_for_index_with_weights self i).
Qed.

Lemma weighted_str_from_lines self (indices : list Z) (desc : string) :
  WeightedGraphStr.str_from format_vertex format_neighbors self indices desc =
    (lines ← rmap (WeightedGraphStr.line format_vertex format_neighbors self)
                  indices;
     Ok (desc +:+ foldr String.app "" lines)).
Proof.
  revert desc. induction indices as [|i indices IH]; intros desc.
  - simpl. by rewrite string_app_nil_r.
  - rewrite weighted_str_from_cons. simpl.
    destruct (WeightedGraphStr.line format_vertex format_neighbors self i)
      as [l|]; simpl; [|done].
    rewrite IH.
    destruct (rmap (WeightedGraphStr.line format_vertex format_neighbors self)
                   indices); simpl; [|done].
    by rewrite string_app_assoc.
Qed.

Lemma with_weights_Raise self (i : Z) err :
  WeightedGraph.neighbors_for_index_with_weights self i = Raise err →
  err = IndexError.
Proof.
  unfold WeightedGraph.neighbors_for_index_with_weights, Graph.edges_for_index.
  destruct (getitem (Graph._edges self) i) as [es|e'] eqn:Hes; simpl.
  - intros (edge & _ & Hedge)%rmap_Raise.
    destruct (Graph.vertex_at self (WeightedEdge.v edge)) as [x|e'] eqn:Hx;
      simpl in Hedge; [done|].
    injection Hedge as <-. by apply getitem_Raise in Hx as [-> _].
  - intros [= <-]. by apply getitem_Raise in Hes as [-> _].
Qed.

Lemma weighted_line_Ok self (i : Z) (l : string) :
  (0 ≤ i < Graph.vertex_count self)%Z →
  WeightedGraphStr.line format_vertex format_neighbors self i = Ok l ↔
  ∃ x ps,
    Graph.vertex_at self i = Ok x ∧
    WeightedGraph.neighbors_for_index_with_weights self i = Ok ps ∧
    l = format_vertex x +:+ " -> " +:+ format_neighbors ps +:+ newline.
Proof.
  intros Hi. unfold WeightedGraphStr.line.
  destruct (vertex_at_in_range self i) as [x Hx].
  { unfold Graph.vertex_count, in_range in *. lia. }
  rewrite Hx. simpl.
  destruct (WeightedGraph.neighbors_for_index_with_weights self i) as [ps|];
    simpl.
  - split; [intros [= <-]; eauto|].
    by intros (x' & ps' & [= <-] & [= <-] & ->).
  - split; [done|]. by intros (x' & ps' & _ & [=] & _).
Qed.

Lemma weighted_line_Raise self (i : Z) err :
  WeightedGraphStr.line format_vertex format_neighbors self i = Raise err →
  err = IndexError.
Proof.
  unfold WeightedGraphStr.line.
  destruct (Graph.vertex_at self i) as [x|e] eqn:Hx; simpl.
  - destruct (WeightedGraph.neighbors_for_index_with_weights self i)
      as [ps|e] eqn:Hps; simpl; [done|].
    intros [= <-]. by eapply with_weights_Raise.
  - intros [= <-]. by apply getitem_Raise in Hx as [-> _].
Qed.

Lemma weighted_lines_shape self (indices : list Z) (lines : list string) :
  Forall (λ i, (0 ≤ i < Graph.vertex_count self)%Z) indices →
  rmap (WeightedGraphStr.line format_vertex format_neighbors self) indices
    = Ok lines →
  Forall2 (λ (i : Z) (l : string), ∃ x ps,
             Graph.vertex_at self i = Ok x ∧
             WeightedGraph.neighbors_for_index_with_weights self i = Ok ps ∧
             l = format_vertex x +:+ " -> " +:+
                 format_neighbors ps +:+ newline)
          indices lines.
Proof.
  intros Hrange Hlines%rmap_Ok_Forall2.
  induction Hlines as [|i l indices' ls Hl _ IH]; [constructor|].
  apply Forall_cons in Hrange as [Hi Hrange].
  constructor; [by apply weighted_line_Ok|by apply IH].
Qed.

(** [__str__] of a weighted graph returns exactly when
    [neighbors_for_index_with_weights] returns for every subscript from
    0 to [vertex_count() - 1], and raises nothing but [IndexError].  When
    it returns, the text is the lines of the subscripts 0, 1, ... put
    together in that order, the line of [i] being the rendering of
    [vertex_at(i)], [" -> "], the rendering of
    [neighbors_for_index_with_weights(i)] and a newline.  On a
    well-formed graph it returns. *)
Theorem weighted_str_returns self :
  ((∃ s, WeightedGraphStr.__str__ format_vertex format_neighbors self = Ok s) ↔
   ∀ i : Z, (0 ≤ i < Graph.vertex_count self)%Z →
            ∃ ps, WeightedGraph.neighbors_for_index_with_weights self i = Ok ps) ∧
  (∀ err, WeightedGraphStr.__str__ format_vertex format_neighbors self
            = Raise err → err = IndexError) ∧
  (∀ s, WeightedGraphStr.__str__ format_vertex format_neighbors self = Ok s →
        ∃ lines,
          s = foldr String.app "" lines ∧
          Forall2 (λ (i : Z) (l : string), ∃ x ps,
                     Graph.vertex_at self i = Ok x ∧
                     WeightedGraph.neighbors_for_index_with_weights self i
                       = Ok ps ∧
                     l = format_vertex x +:+ " -> " +:+
                         format_neighbors ps +:+ newline)
                  (GraphStr.range (Graph.vertex_count self)) lines) ∧
  (Graph.wf self →
   ∃ s, WeightedGraphStr.__str__ format_vertex format_neighbors self = Ok s).
Proof.
  unfold WeightedGraphStr.__str__. rewrite weighted_str_from_lines.
  assert ((∀ i : Z, (0 ≤ i < Graph.vertex_count self)%Z →
             ∃ ps, WeightedGraph.neighbors_for_index_with_weights self i = Ok ps) →
          ∃ lines,
            rmap (WeightedGraphStr.line format_vertex format_neighbors self)
                 (GraphStr.range (Graph.vertex_count self)) = Ok lines) as Hall.
  { intros Hps. apply rmap_Forall_Ok.
    eapply Forall_impl; [apply range_Forall|]. intros i Hi. simpl in Hi.
    destruct (Hps i Hi) as [ps Hp].
    destruct (vertex_at_in_range self i) as [x Hx].
    { unfold Graph.vertex_count, in_range in *. lia. }
    eexists. apply weighted_line_Ok; [done|]. eauto. }
  split_and!.
  - split.
    + intros [s Hs] i Hi.
      destruct (rmap _ _) as [lines|] eqn:Hlines; [|done].
      apply (weighted_lines_shape self _ lines (range_Forall _)) in Hlines.
      destruct (Forall2_lookup_l _ _ _ (Z.to_nat i) i Hlines)
        as (l & _ & x & ps & _ & Hps & _); [|eauto].
      unfold GraphStr.range. rewrite list_lookup_fmap, lookup_seq_lt; [|lia].
      simpl. f_equal. lia.
    + intros Hps. destruct (Hall Hps) as [lines ->]. simpl. eauto.
  - intros err. destruct (rmap _ _) as [lines|e] eqn:Hlines; [done|].
    simpl. intros [= <-]. apply rmap_Raise in Hlines as (i & _ & Hi).
    by eapply weighted_line_Raise.
  - intros s. destruct (rmap _ _) as [lines|e] eqn:Hlines; [|done].
    simpl. intros [= <-]. exists lines. split; [done|].
    by apply (weighted_lines_shape self _ lines (range_Forall _)).
  - intros Hwf. destruct Hall as [lines ->]; [|simpl; eauto].
    intros i Hi. pose proof Hwf as [Hlen _].
    destruct (getitem_in_range (Graph._edges self) i) as [es Hes].
    { unfold Graph.vertex_count, in_range in *. lia. }
    destruct (wf_neighbors_with_weights self i es Hwf Hes) as (ps & Hps & _).
    eauto.
Qed.
End WeightedGraphStrFacts.

Section StrConcrete.
#[local] Open Scope string_scope.
#[local] Open Scope list_scope.

Lemma str_returns_when_neighbors_do_witness :
  ∃ lines,
    GraphStr.__str__ (λ x : string, x) (String.concat ", ") Examples.abc_path
      = Ok (foldr String.app "" lines) ∧
    length lines = 3.
Proof.
  destruct (proj2 (proj2 (str_returns_when_neighbors_do
              (λ x : string, x) (String.concat ", ") Examples.abc_path)))
    as (lines & Hstr & Hlen & _); [by_decide|].
  by exists lines.
Defined.

Lemma failed_add_edge_breaks_reads_witness :
  ∃ g',
    Graph.add_edge_by_indices 0 7 Examples.abc = (Raise IndexError, g') ∧
    Graph.neighbors_for_index g' 0 = Raise IndexError ∧
    GraphStr.__str__ (λ x : string, x) (String.concat ", ") g'
      = Raise IndexError.
Proof.
  destruct (failed_add_edge_breaks_reads
              (λ x : string, x) (String.concat ", ") Examples.abc 0 7)
    as (g' & Hrun & _ & Hnb & Hstr).
  - by_decide.
  - unfold Graph.vertex_count. simpl. lia.
  - unfold in_range. simpl. lia.
  - by exists g'.
Defined.

Lemma weighted_str_returns_witness :
  (∃ s, WeightedGraphStr.__str__ (λ x : string, x)
          (λ ps, String.concat ", " (ps.*1)) Examples.xy_joined = Ok s) ∧
  ∃ lines,
    "X -> Y" +:+ newline +:+ "Y -> X" +:+ newline = foldr String.app "" lines ∧
    length lines = 2.
Proof.
  destruct (weighted_str_returns (λ x : string, x)
              (λ ps, String.concat ", " (ps.*1)) Examples.xy_joined)
    as (_ & _ & Hshape & Hwf).
  split; [apply Hwf; by_decide|].
  destruct (Hshape ("X -> Y" +:+ newline +:+ "Y -> X" +:+ newline))
    as (lines & Hs & Hlines); [reflexivity|].
  exists lines. split; [done|].
  apply Forall2_length in Hlines. by rewrite <-Hlines.
Defined.

Example abc_path_rendered :
  GraphStr.__str__ (λ x : string, x) (String.concat ", ") Examples.abc_path =
    Ok ("A -> B" +:+ newline +:+ "B -> A, C" +:+ newline +:+
        "C -> B" +:+ newline).
Proof. reflexivity. Qed.
End StrConcrete.

(** ** The order of weighted edges *)

Lemma SFltb_irrefl (x : spec_float) : SFltb x x = false.
Proof.
  unfold SFltb, SFcompare. destruct x as [[]|[]| |[] m e]; try done.
  - rewrite Z.compare_refl.
    change (Pos.compare_cont Eq m m) with (Pos.compare m m).
    by rewrite Pos.compare_refl.
  - rewrite Z.compare_refl.
    change (Pos.compare_cont Eq m m) with (Pos.compare m m).
    by rewrite Pos.compare_refl.
Qed.

Lemma SFltb_trans (x y z : spec_float) :
  SFltb x y = true → SFltb y z = true → SFltb x z = true.
Proof.
  unfold SFltb, SFcompare.
  destruct x as [[]|[]| |[] m1 e1], y as [[]|[]| |[] m2 e2],
           z as [[]|[]| |[] m3 e3]; try done;
    change (Pos.compare_cont Eq) with Pos.compare;
    destruct (Z.compare_spec e1 e2), (Z.compare_spec e2 e3),
             (Z.compare_spec e1 e3); try done; try lia;
    destruct (Pos.compare_spec m1 m2), (Pos.compare_spec m2 m3),
             (Pos.compare_spec m1 m3); simpl; try done; try lia.
Qed.

(** [a < b] on weighted edges is a strict order on the weights: no edge
    is less than itself, it is transitive, so two edges are never each
    less than the other; and it compares nothing but the weights. *)
Theorem WeightedEdge_lt_strict_order :
  (∀ a, WeightedEdge.lt a a = false) ∧
  (∀ a b c, WeightedEdge.lt a b = true → WeightedEdge.lt b c = true →
            WeightedEdge.lt a c = true) ∧
  (∀ a b, WeightedEdge.lt a b = true → WeightedEdge.lt b a = false) ∧
  (∀ a b, WeightedEdge.lt a b = true →
          WeightedEdge.lt (WeightedEdge.reversed a) b = true ∧
          WeightedEdge.lt a (WeightedEdge.reversed b) = true).
Proof.
  unfold WeightedEdge.lt.
  assert (∀ x y z : float, PrimFloat.ltb x y = true → PrimFloat.ltb y z = true →
                           PrimFloat.ltb x z = true) as Htrans.
  { intros x y z. rewrite !ltb_spec. apply SFltb_trans. }
  assert (∀ x : float, PrimFloat.ltb x x = false) as Hirrefl.
  { intros x. rewrite ltb_spec. apply SFltb_irrefl. }
  split_and!.
  - intros a. apply Hirrefl.
  - intros a b c. apply Htrans.
  - intros a b Hab. apply not_true_is_false. intros Hba.
    pose proof (Htrans _ _ _ Hab Hba) as Haa. by rewrite Hirrefl in Haa.
  - intros [] []. done.
Qed.

Lemma WeightedEdge_lt_strict_order_witness :
  WeightedEdge.lt (WeightedEdge.mk 0 1 1) (WeightedEdge.mk 2 3 5) = true ∧
  WeightedEdge.lt (WeightedEdge.mk 2 3 5) (WeightedEdge.mk 0 1 1) = false.
Proof.
  assert (WeightedEdge.lt (WeightedEdge.mk 0 1 1) (WeightedEdge.mk 1 2 3) = true)
    as H13 by reflexivity.
  assert (WeightedEdge.lt (WeightedEdge.mk 1 2 3) (WeightedEdge.mk 2 3 5) = true)
    as H35 by reflexivity.
  pose proof (proj1 (proj2 WeightedEdge_lt_strict_order) _ _ _ H13 H35) as H15.
  split; [exact H15|].
  exact (proj1 (proj2 (proj2 WeightedEdge_lt_strict_order)) _ _ H15).
Defined.

(** Weights that compare equal, and weights that are not numbers, leave
    two edges unordered: neither is less than the other. *)
Example WeightedEdge_lt_unordered :
  WeightedEdge.lt (WeightedEdge.mk 0 1 2) (WeightedEdge.mk 1 2 2) = false ∧
  WeightedEdge.lt (WeightedEdge.mk 1 2 2) (WeightedEdge.mk 0 1 2) = false ∧
  WeightedEdge.lt (WeightedEdge.mk 0 1 nan) (WeightedEdge.mk 1 2 2) = false ∧
  WeightedEdge.lt (WeightedEdge.mk 1 2 2) (WeightedEdge.mk 0 1 nan) = false.
Proof. by vm_compute. Qed.

(** ** A new graph *)

Section NewGraph.
Context {V E : Type} `{EqDecision V} `{EdgeLike E}.

(** The constructor gives a well-formed graph with the vertices in the
    order given and no edge: every subscript the vertex list accepts has
    an empty adjacency list and no neighbours, and so has every vertex
    value. *)
Theorem init_has_no_edges (vertices : list V) :
  Graph.wf (Graph.init (E:=E) vertices) ∧
  Graph.vertex_count (Graph.init (E:=E) vertices) = Z.of_nat (length vertices) ∧
  Graph.edge_count (Graph.init (E:=E) vertices) = 0%Z ∧
  (∀ i : Z, in_range (length vertices) i →
     Graph.edges_for_index (Graph.init (E:=E) vertices) i = Ok [] ∧
     Graph.neighbors_for_index (Graph.init (E:=E) vertices) i = Ok []) ∧
  (∀ x, x ∈ vertices →
     Graph.neighbors_for_vertex (Graph.init (E:=E) vertices) x = Ok []).
Proof.
  assert (∀ i : Z, in_range (length vertices) i →
            getitem ((λ _ : V, @nil E) <$> vertices) i = Ok []) as Hget.
  { intros i Hi.
    destruct (getitem_in_range ((λ _ : V, @nil E) <$> vertices) i) as [es Hes].
    { by rewrite length_fmap. }
    rewrite Hes. apply getitem_Ok in Hes as (k & _ & Hk).
    rewrite list_lookup_fmap in Hk. by destruct (vertices !! k); simplify_eq/=. }
  split_and!.
  - apply wf_init.
  - done.
  - rewrite edge_count_adjacency_total. unfold Graph.adjacency_total. simpl.
    rewrite <-list_fmap_compose. f_equal.
    clear. induction vertices as [|x vs IH]; [done|].
    rewrite fmap_cons. simpl. exact IH.
  - intros i Hi. unfold Graph.neighbors_for_index, Graph.edges_for_index.
    simpl. by rewrite Hget.
  - intros x Hx. unfold Graph.neighbors_for_vertex, Graph.index_of.
    destruct (index_Ok _ _ Hx) as (k & Hidx & Hk & _). simpl.
    rewrite Hidx. simpl.
    unfold Graph.neighbors_for_index. simpl. rewrite Hget; [done|].
    apply lookup_lt_Some in Hk. unfold in_range. lia.
Qed.
End NewGraph.

(** ** Negative subscripts *)

Section NegativeSubscripts.
Context {V : Type} `{EqDecision V}.
Implicit Types (g : Graph.t V Edge.t) (u : Z) (x : V).

(** A negative subscript is stored as it was given, and read again
    against the vertices there are at the time.  After
    [add_edge_by_indices(u, -1)] the last neighbour of [u] is the vertex
    that was last; after a further [add_vertex(x)] it is [x], which has
    no adjacency entry of its own. *)
Theorem negative_subscript_follows_last_vertex g u x :
  Graph.wf g →
  (0 ≤ u < Graph.vertex_count g - 1)%Z →
  ∃ g1 g2 y ns1 ns2,
    last (Graph._vertices g) = Some y ∧
    Graph.add_edge_by_indices u (-1) g = (Ok (), g1) ∧
    Graph.neighbors_for_index g1 u = Ok ns1 ∧ last ns1 = Some y ∧
    Graph.add_vertex x g1 = (Ok (Graph.vertex_count g), g2) ∧
    Graph.neighbors_for_index g2 u = Ok ns2 ∧ last ns2 = Some x ∧
    Graph.edges_for_index g2 (Graph.vertex_count g) = Ok [].
Proof.
  intros Hwf Hu. pose proof Hwf as [Hlen Hall].
  unfold Graph.vertex_count in *.
  set (n := length (Graph._vertices g)) in *.
  assert (py_index (Graph._edges g) u = Some (Z.to_nat u)) as Hk
    by (apply py_index_nonneg; lia).
  assert (py_index (Graph._edges g) (-1) = Some (n - 1)) as Hj.
  { unfold py_index. rewrite decide_False by lia.
    rewrite decide_True by lia. f_equal. lia. }
  destruct (lookup_lt_is_Some_2 (Graph._edges g) (Z.to_nat u)) as [lu Hlu]; [lia|].
  destruct (lookup_lt_is_Some_2 (Graph._vertices g) (n - 1)) as [y Hy]; [lia|].
  pose proof (add_edge_Ok g (Edge.mk u (-1)) _ _ Hk Hj) as Hrun.
  set (g1 := Graph.mk (Graph._vertices g)
                (alter (λ l, l ++ [edge_reversed (Edge.mk u (-1))]) (n - 1)
                   (alter (λ l, l ++ [Edge.mk u (-1)]) (Z.to_nat u)
                      (Graph._edges g)))) in *.
  assert (Graph.wf g1) as Hwf1.
  { eapply wf_add_edge; [exact Hwf|apply Edge_reversed_v|exact Hrun]. }
  assert (Graph._edges g1 !! Z.to_nat u = Some (lu ++ [Edge.mk u (-1)])) as Hlu1.
  { unfold g1. simpl. rewrite lookup_after_add_edge, Hlu. simpl.
    rewrite decide_True by done. rewrite decide_False by lia.
    by rewrite (right_id_L [] (++)). }
  destruct (add_vertex_inv g1 x) as (g2 & Hadd & Hvs2 & Hes2 & _).
  assert (Graph.wf g2) as Hwf2 by by eapply wf_add_vertex.
  assert (Graph.edges_for_index g1 u = Ok (lu ++ [Edge.mk u (-1)])) as Hget1
    by (apply getitem_nonneg; [lia|done]).
  assert (Graph.edges_for_index g2 u = Ok (lu ++ [Edge.mk u (-1)])) as Hget2.
  { apply getitem_nonneg; [lia|]. rewrite Hes2. by apply lookup_app_l_Some. }
  destruct (wf_neighbors g1 u _ Hwf1 Hget1) as (ns1 & Hns1 & Hm1).
  destruct (wf_neighbors g2 u _ Hwf2 Hget2) as (ns2 & Hns2 & Hm2).
  assert (∀ g' z ns, rmap (Graph.vertex_at g')
                       (edge_v <$> lu ++ [Edge.mk u (-1)]) = Ok ns →
            last (Graph._vertices g') = Some z → last ns = Some z) as Hlast.
  { intros g' z ns Hns Hz. rewrite fmap_app, rmap_app in Hns.
    destruct (rmap (Graph.vertex_at g') (edge_v <$> lu)) as [ms|]; [|done].
    simpl in Hns. unfold Graph.vertex_at in Hns.
    assert (getitem (Graph._vertices g') (-1) = Ok z) as Hget.
    { apply getitem_Ok. pose proof (last_lookup (Graph._vertices g')) as Hl.
      rewrite Hz in Hl. symmetry in Hl.
      pose proof (lookup_lt_Some _ _ _ Hl) as Hlt.
      eexists. split; [|exact Hl]. unfold py_index.
      rewrite decide_False by lia. rewrite decide_True by lia. f_equal. lia. }
    rewrite Hget in Hns. simpl in Hns. injection Hns as <-.
    by rewrite last_snoc. }
  exists g1, g2, y, ns1, ns2. split_and!.
  - rewrite last_lookup. rewrite <-Hy. f_equal. lia.
  - exact Hrun.
  - exact Hns1.
  - eapply Hlast; [exact Hm1|]. simpl. rewrite last_lookup, <-Hy. f_equal. lia.
  - exact Hadd.
  - exact Hns2.
  - eapply Hlast; [exact Hm2|]. rewrite Hvs2. apply last_snoc.
  - apply getitem_nonneg; [lia|]. rewrite Hes2, Nat2Z.id.
    assert (length (Graph._edges g1) = n) as Hlen1.
    { unfold g1. simpl. by rewrite !length_alter. }
    rewrite <-Hlen1. by apply list_lookup_middle.
Qed.
End NegativeSubscripts.

(** ** [edges_for_vertex] *)

Section EdgesForVertex.
Context {E : Type} `{EdgeLike E}.

(** On a graph whose vertices are the integers 0, 1, ... in order, each
    vertex its own index, [edges_for_vertex(x)] is
    [edges_for_index(index_of(x))] for every vertex [x]: the one
    labelling on which subscripting with the value goes unnoticed. *)
Theorem edges_for_vertex_own_index (g : Graph.t Z E) (x : Z) :
  (∀ k : nat, k < length (Graph._vertices g) →
              Graph._vertices g !! k = Some (Z.of_nat k)) →
  x ∈ Graph._vertices g →
  Graph.edges_for_vertex g x = Graph.edges_for_index g x ∧
  Graph.index_of g x = Ok x.
Proof.
  intros Hids Hx.
  apply list_elem_of_lookup in Hx as [k Hk].
  pose proof (lookup_lt_Some _ _ _ Hk) as Hlt.
  rewrite (Hids k Hlt) in Hk. injection Hk as <-.
  split.
  - unfold Graph.edges_for_vertex, as_index, Z_as_index, Graph.vertex_at.
    rewrite (getitem_nonneg _ _ (Z.of_nat k));
      [done|lia|by rewrite Nat2Z.id; apply Hids].
  - unfold Graph.index_of.
    destruct (index_Ok (Graph._vertices g) (Z.of_nat k)) as (j & Hj & Hjk & Hfirst).
    { apply list_elem_of_lookup. exists k. by apply Hids. }
    rewrite Hj. f_equal.
    pose proof (lookup_lt_Some _ _ _ Hjk) as Hjlt.
    rewrite (Hids j Hjlt) in Hjk. by injection Hjk.
Qed.
End EdgesForVertex.

Section MoreConcrete.
#[local] Open Scope string_scope.
#[local] Open Scope list_scope.

Lemma init_has_no_edges_witness :
  Graph.neighbors_for_index (Graph.init (E:=Edge.t) ["A"; "B"]) (-1) = Ok [] ∧
  Graph.neighbors_for_vertex (Graph.init (E:=Edge.t) ["A"; "B"]) "A" = Ok [].
Proof.
  destruct (init_has_no_edges (E:=Edge.t) ["A"; "B"])
    as (_ & _ & _ & Hindex & Hvertex).
  split.
  - apply Hindex. unfold in_range. simpl. lia.
  - apply Hvertex. by_decide.
Defined.

Lemma negative_subscript_follows_last_vertex_witness :
  ∃ g1 g2 ns1 ns2,
    Graph.add_edge_by_indices 0 (-1) Examples.abc = (Ok (), g1) ∧
    Graph.neighbors_for_index g1 0 = Ok ns1 ∧ last ns1 = Some "C" ∧
    Graph.add_vertex "D" g1 = (Ok 3%Z, g2) ∧
    Graph.neighbors_for_index g2 0 = Ok ns2 ∧ last ns2 = Some "D".
Proof.
  destruct (negative_subscript_follows_last_vertex Examples.abc 0 "D")
    as (g1 & g2 & y & ns1 & ns2 & Hy & Hrun & Hns1 & Hl1 & Hadd & Hns2 & Hl2 & _).
  - by_decide.
  - unfold Graph.vertex_count. simpl. lia.
  - injection Hy as <-. by exists g1, g2, ns1, ns2.
Defined.

Lemma edges_for_vertex_own_index_witness :
  Graph.edges_for_vertex (E:=Edge.t) (Graph.init [0; 1; 2]%Z) 2%Z =
  Graph.edges_for_index (E:=Edge.t) (Graph.init [0; 1; 2]%Z) 2%Z.
Proof.
  apply (edges_for_vertex_own_index (E:=Edge.t) (Graph.init [0; 1; 2]%Z) 2%Z).
  - intros [|[|[|k]]] Hk; simpl in *; try done. lia.
  - by_decide.
Defined.
End MoreConcrete.

(** ** Rendering an edge *)

Section EdgeStrFacts.
#[local] Open Scope string_scope.

Lemma no_space_nil : EdgeStr.no_space "".
Proof. intros [|c s1] s2; discriminate. Qed.

Lemma no_space_cons (c : Ascii.ascii) (s : string) :
  c ≠ Ascii.ascii_of_nat 32 → EdgeStr.no_space s → EdgeStr.no_space (String c s).
Proof.
  intros Hc Hs [|c' s1] s2.
  - intros [= -> _]. done.
  - intros [= _ ->]. by eapply Hs.
Qed.

Lemma no_space_tail (c : Ascii.ascii) (s : string) :
  EdgeStr.no_space (String c s) → EdgeStr.no_space s.
Proof. intros Hs s1 s2 ->. by apply (Hs (String c s1) s2). Qed.

Lemma pretty_N_char_not_space (x : N) : pretty_N_char x ≠ Ascii.ascii_of_nat 32.
Proof. unfold pretty_N_char. by repeat case_match. Qed.

Lemma pretty_N_go_no_space (x : N) (s : string) :
  EdgeStr.no_space s → EdgeStr.no_space (pretty_N_go x s).
Proof.
  revert s. induction (N.lt_wf_0 x) as [x _ IH]. intros s Hs.
  destruct (decide (x = 0)%N) as [->|Hx].
  - by rewrite pretty_N_go_0.
  - rewrite pretty_N_go_step by lia. apply IH.
    + apply N.div_lt; lia.
    + apply no_space_cons; [apply pretty_N_char_not_space|done].
Qed.

Lemma pretty_N_no_space (x : N) : EdgeStr.no_space (pretty x).
Proof.
  unfold pretty, pretty_N. case_decide.
  - apply no_space_cons; [done|apply no_space_nil].
  - apply pretty_N_go_no_space, no_space_nil.
Qed.

Lemma pretty_Z_no_space (z : Z) : EdgeStr.no_space (pretty z).
Proof.
  unfold pretty, pretty_Z. destruct z as [|p|p].
  - apply no_space_cons; [done|apply no_space_nil].
  - apply pretty_N_no_space.
  - apply no_space_cons; [done|apply pretty_N_no_space].
Qed.

Lemma cut_at_first_space (s1 s2 r1 r2 : string) :
  EdgeStr.no_space s1 → EdgeStr.no_space s2 →
  s1 +:+ String (Ascii.ascii_of_nat 32) r1 = s2 +:+ String (Ascii.ascii_of_nat 32) r2 →
  s1 = s2 ∧ r1 = r2.
Proof.
  revert s2. induction s1 as [|c s1 IH]; intros [|c' s2] H1 H2.
  - by intros [= ->].
  - intros [= <- _]. by destruct (H2 "" s2).
  - intros [= -> _]. by destruct (H1 "" s1).
  - intros [= -> Heq].
    destruct (IH s2) as [-> ->]; eauto using no_space_tail.
Qed.

(** [__str__] of an edge tells the edge: two edges with the same
    rendering have the same endpoints. *)
Theorem Edge_str_inj (e1 e2 : Edge.t) :
  EdgeStr.__str__ e1 = EdgeStr.__str__ e2 → e1 = e2.
Proof.
  destruct e1 as [u1 v1], e2 as [u2 v2]. unfold EdgeStr.__str__. simpl.
  intros Heq.
  apply (cut_at_first_space _ _ ("-> " +:+ pretty v1) ("-> " +:+ pretty v2))
    in Heq as [Hu Hv]; [|apply pretty_Z_no_space..].
  apply (inj pretty) in Hu. apply (inj (String.app "-> ")) in Hv.
  apply (inj pretty) in Hv. by subst.
Qed.

Lemma Edge_str_inj_witness :
  Edge.mk (3 - 4) (2 * 5) = Edge.mk (-1) 10.
Proof. apply Edge_str_inj. reflexivity. Defined.

Example Edge_str_negative : EdgeStr.__str__ (Edge.mk (-1) 10) = "-1 -> 10".
Proof. reflexivity. Qed.
End EdgeStrFacts.

(** ** After calls that returned *)

Section AfterReturnedCalls.
Context {V : Type} `{EqDecision V}.

Lemma do_weighted_call_adjacency_total
    (g : WeightedGraph.t V) (c : WeightedCalls.call) g' :
  WeightedCalls.do_call c g = (Ok (), g') →
  Graph.adjacency_total g' =
    (if WeightedCalls.is_add_edge c then 2 else 0) + Graph.adjacency_total g.
Proof.
  destruct c as [x|e|u v w|a b w]; simpl.
  - destruct (add_vertex_inv g x) as (g1 & Hrun & _ & _ & Htot).
    unfold mbind, M_bind. rewrite Hrun. by intros [= <-].
  - intros Hrun. by apply add_edge_inv in Hrun as (_ & _ & ->).
  - intros Hrun. by apply add_edge_inv in Hrun as (_ & _ & ->).
  - rewrite weighted_add_edge_by_vertices_unfold.
    destruct (Graph.index_of g a); [|done].
    destruct (Graph.index_of g b); [|done].
    intros Hrun. by apply add_edge_inv in Hrun as (_ & _ & ->).
Qed.

(** On a weighted graph as well, calls that all returned leave
    [edge_count()] at what it was plus twice the number of [add_edge],
    [add_edge_by_indices] and [add_edge_by_vertices] calls. *)
Theorem weighted_edge_count_after_calls
    (g : WeightedGraph.t V) (cs : list WeightedCalls.call) g' :
  WeightedCalls.do_calls cs g = (Ok (), g') →
  Graph.edge_count g' =
    (Graph.edge_count g +
     2 * Z.of_nat (length (filter (λ c, WeightedCalls.is_add_edge c = true) cs)))%Z.
Proof.
  rewrite !edge_count_adjacency_total.
  revert g. induction cs as [|c cs IH]; intros g; simpl.
  - intros [= <-]. lia.
  - unfold mbind, M_bind.
    destruct (WeightedCalls.do_call c g) as [[[]|e] g1] eqn:Hc; [|done].
    intros Hrun. apply IH in Hrun.
    apply do_weighted_call_adjacency_total in Hc.
    destruct (WeightedCalls.is_add_edge c) eqn:Hadd.
    + rewrite filter_cons_True by done. simpl length. lia.
    + rewrite filter_cons_False by (by rewrite Hadd). lia.
Qed.
End AfterReturnedCalls.

Section AfterReturnedCallsConcrete.
#[local] Open Scope string_scope.
#[local] Open Scope list_scope.

Lemma weighted_edge_count_after_calls_witness :
  Graph.edge_count
    (WeightedCalls.do_calls
       [WeightedCalls.AddEdgeByVertices "X" "Y" 10; WeightedCalls.AddVertex "Z";
        WeightedCalls.AddEdgeByIndices 2 (-3) 4] Examples.xy).2 = 4%Z.
Proof.
  apply (weighted_edge_count_after_calls Examples.xy
           [WeightedCalls.AddEdgeByVertices "X" "Y" 10; WeightedCalls.AddVertex "Z";
            WeightedCalls.AddEdgeByIndices 2 (-3) 4]).
  reflexivity.
Defined.
End AfterReturnedCallsConcrete.

(** ** Graphs that are not well-formed *)

Section NotWellFormed.
#[local] Open Scope string_scope.
#[local] Open Scope list_scope.

(** C3, as stated for every graph, fails: on the graph that a caught
    [add_edge_by_indices(0, 7)] leaves of ["A", "B", "C"], the call
    [add_edge_by_indices(0, 1)] has both subscripts in range and
    returns, but [neighbors_for_index(0)] then raises [IndexError], so
    that [vertex_at(1)] is not among its result. *)
Lemma add_edge_by_indices_after_failed_add :
  Graph.add_edge_by_indices 0 7 Examples.abc
    = (Raise IndexError, AfterFailure.abc_half_written) ∧
  (0 ≤ 0 < Graph.vertex_count AfterFailure.abc_half_written)%Z ∧
  (0 ≤ 1 < Graph.vertex_count AfterFailure.abc_half_written)%Z ∧
  ∃ g',
    Graph.add_edge_by_indices 0 1 AfterFailure.abc_half_written = (Ok (), g') ∧
    Graph.neighbors_for_index g' 0 = Raise IndexError.
Proof.
  split_and!; [reflexivity|by vm_compute..|].
  eexists. split; reflexivity.
Qed.

(** C6, as stated for every weighted graph, fails: on the graph that a
    caught [add_edge_by_indices(0, 7, 3.0)] leaves of ["X", "Y"], the
    call [add_edge_by_indices(0, 1, 10.0)] has both subscripts in range
    and returns, but [neighbors_for_index_with_weights(0)] then raises
    [IndexError]. *)
Lemma weighted_add_edge_by_indices_after_failed_add :
  WeightedGraph.add_edge_by_indices 0 7 3 Examples.xy
    = (Raise IndexError, AfterFailure.xy_half_written) ∧
  (0 ≤ 0 < Graph.vertex_count AfterFailure.xy_half_written)%Z ∧
  (0 ≤ 1 < Graph.vertex_count AfterFailure.xy_half_written)%Z ∧
  ∃ g',
    WeightedGraph.add_edge_by_indices 0 1 10 AfterFailure.xy_half_written
      = (Ok (), g') ∧
    WeightedGraph.neighbors_for_index_with_weights g' 0 = Raise IndexError.
Proof.
  split_and!; [reflexivity|by vm_compute..|].
  eexists. split; reflexivity.
Qed.

(** C10, as stated for every graph, fails: on the second of two graphs
    made by [Graph()], after [add_vertex("a")] on the first, the
    subscript 0 is in [[0, vertex_count())] and yet the self-loop
    [add_edge_by_indices(0, 0)] raises [IndexError]. *)
Lemma self_loop_on_sharing_graph :
  ∃ g1 g2,
    Examples.two_default_graphs = Some (g1, g2) ∧
    (0 ≤ 0 < Graph.vertex_count g2)%Z ∧
    Graph.add_edge_by_indices 0 0 g2 = (Raise IndexError, g2).
Proof.
  exists (Graph.mk ["a"] [[]]), (Graph.mk ["a"] []).
  split_and!; by vm_compute.
Qed.
End NotWellFormed.

(** ** A graph that holds its vertex list alone *)

Section Alone.
Context {V : Type} `{EqDecision V}.
Implicit Types (h : Heap.t V Edge.t) (g : Heap.loc)
  (cs : list (Heap.loc * Graph.call (V:=V))).





End Alone.

Section AloneConcrete.
#[local] Open Scope string_scope.
#[local] Open Scope list_scope.

End AloneConcrete.
